(** * SAT to ILP reduction: the encoder, the evaluator and the solve wrapper

    A shallow embedding of [sat.py] and [sat2.py].  The two files carry the
    same [sat_to_ilp] and [solve_ilp]; [sat.py] adds the evaluator
    [verify_sat] with its helpers [use_operator_on_values] and
    [use_operator_on_booleans].

    Python exceptions are values of [Exception]; a call either [Return]s or
    [Raise]s.  The dictionaries [variables] and [input] are finite maps keyed
    by literal names.  The encoder's closure state (the problem under
    construction, [variables] and [aux_counter]) is threaded explicitly. *)

From Stdlib Require Import ZArith Lia Ascii.
From stdpp Require Import gmap strings list pretty.

Local Open Scope Z_scope.

(** ** Data model *)

(** [class Operator(Enum)]. *)
Inductive Operator : Type := AND | OR | NOT.

(** [Union[str, Set]]: a [str] is a [Literal], a [Set(operator, values)] is a
    [Gate] (the class name of the source is a reserved word here). *)
#[local] Unset Elimination Schemes.
Inductive Formula : Type :=
  | Literal (name : string)
  | Gate (operator : Operator) (values : list Formula).
#[local] Set Elimination Schemes.

(** Structural induction with the hypothesis available for every operand. *)
Definition Formula_nested_ind (P : Formula -> Prop)
    (HLiteral : forall name, P (Literal name))
    (HGate : forall op vs, Forall P vs -> P (Gate op vs)) :
    forall f, P f :=
  fix go (f : Formula) : P f :=
    match f with
    | Literal name => HLiteral name
    | Gate op vs =>
        HGate op vs
          ((fix all (l : list Formula) : Forall P l :=
              match l with
              | [] => @List.Forall_nil _ P
              | v :: l' => @List.Forall_cons _ P v l' (go v) (all l')
              end) vs)
    end.

(** The exceptions the modelled code can raise.  [NoSolution] is
    [Exception("No solution")] of [solve_ilp]; [AttributeError] is what
    reading [.values] of a [str] raises; [TypeError] is what indexing a dict
    with an unhashable [Set] raises; [PulpSolverError] is what
    [problem.solve()] raises on a problem in which two variables have the
    same name. *)
Inductive Exception : Type :=
  | KeyError (key : string)
  | IndexError
  | AttributeError
  | TypeError
  | NoSolution
  | PulpSolverError.

Inductive Result (A : Type) : Type :=
  | Return (a : A)
  | Raise (e : Exception).
Arguments Return {A} a.
Arguments Raise {A} e.

(** ** Linear programs as the encoder builds them *)

(** [LpVariable(f"x_{name}", 0, 1, cat="Binary")] and
    [LpVariable(f"aux_{count}", 0, 1, cat="Binary")]. *)
Inductive LpVariable : Type :=
  | x_ (name : string)
  | aux_ (count : nat).

(** Linear expressions, as the source writes them. *)
Inductive LpExpr : Type :=
  | EVar (v : LpVariable)
  | EConst (c : Z)
  | EAdd (l r : LpExpr)
  | ESub (l r : LpExpr).

Inductive LpConstraint : Type :=
  | LpLe (l r : LpExpr)
  | LpGe (l r : LpExpr)
  | LpEq (l r : LpExpr).

Inductive LpSense : Type := LpMaximize | LpMinimize.

(** [LpProblem(name, sense)]: [problem += constraint] appends to
    [constraints]; [problem += variable, name] sets the [objective]. *)
Record LpProblem : Type := mkLpProblem {
  sense : LpSense;
  objective : option LpExpr;
  constraints : list LpConstraint
}.

(** The state captured by the closures of one [sat_to_ilp] call. *)
Record Session : Type := mkSession {
  problem : LpProblem;
  variables : gmap string LpVariable;
  aux_counter : nat
}.

(** ** A state and exception monad for the encoder *)

Definition M (A : Type) : Type := Session -> Result (A * Session).

Definition ret {A} (a : A) : M A := fun st => Return (a, st).

Definition bind {A B} (m : M A) (k : A -> M B) : M B :=
  fun st =>
    match m st with
    | Return (a, st') => k a st'
    | Raise e => Raise e
    end.

Definition throw {A} (e : Exception) : M A := fun _ => Raise e.

Notation "x <- m ;; k" := (bind m (fun x => k))
  (at level 100, m at next level, right associativity).
Notation "m ;;; k" := (bind m (fun _ => k))
  (at level 100, right associativity).

Section MapM.
Context {A B : Type} (f : A -> M B).

(** [[f(v) for v in l]], left to right, stopping at the first exception. *)
Fixpoint mapM (l : list A) : M (list B) :=
  match l with
  | [] => ret []
  | a :: l' => b <- f a ;; bs <- mapM l' ;; ret (b :: bs)
  end.

(** [for v in l: f(v)]. *)
Fixpoint forM_ (l : list A) : M unit :=
  match l with
  | [] => ret tt
  | a :: l' => f a ;;; forM_ l'
  end.
End MapM.

(** ** The encoder: [sat_to_ilp] *)

(** [problem += c] for a constraint [c]. *)
Definition add_constraint (c : LpConstraint) : M unit :=
  fun st =>
    Return (tt,
      mkSession
        (mkLpProblem (sense (problem st)) (objective (problem st))
           (constraints (problem st) ++ [c]))
        (variables st) (aux_counter st)).

Definition generate_aux_var : M LpVariable :=
  fun st =>
    Return (aux_ (aux_counter st),
      mkSession (problem st) (variables st) (S (aux_counter st))).

(** The [isinstance(equation, str)] branch of [process_set]. *)
Definition process_literal (name : string) : M LpVariable :=
  fun st =>
    match variables st !! name with
    | Some v => Return (v, st)
    | None =>
        Return (x_ name,
          mkSession (problem st) (<[name := x_ name]> (variables st))
            (aux_counter st))
    end.

(** Python's [sum(values)]: [0 + v1 + v2 + ...], associated to the left. *)
Definition sum (values : list LpVariable) : LpExpr :=
  fold_left (fun acc v => EAdd acc (EVar v)) values (EConst 0).
Arguments sum : simpl never.

(** The body of [process_set] after the operands are encoded and the
    auxiliary variable is allocated. *)
Definition emit_gate (op : Operator) (aux_var : LpVariable)
    (values : list LpVariable) : M unit :=
  match op with
  | AND =>
      forM_ (fun v => add_constraint (LpLe (EVar aux_var) (EVar v))) values ;;;
      add_constraint
        (LpGe (EVar aux_var)
           (EAdd (ESub (sum values) (EConst (Z.of_nat (length values))))
              (EConst 1)))
  | OR =>
      forM_ (fun v => add_constraint (LpGe (EVar aux_var) (EVar v))) values ;;;
      add_constraint (LpLe (EVar aux_var) (sum values))
  | NOT =>
      match values with
      | [] => throw IndexError
      | v :: _ =>
          add_constraint (LpEq (EVar aux_var) (ESub (EConst 1) (EVar v)))
      end
  end.

Fixpoint process_set (equation : Formula) : M LpVariable :=
  match equation with
  | Literal name => process_literal name
  | Gate op vs =>
      values <- mapM process_set vs ;;
      aux_var <- generate_aux_var ;;
      emit_gate op aux_var values ;;;
      ret aux_var
  end.

(** The state at the start of every [sat_to_ilp] call:
    [LpProblem("SAT_to_ILP", LpMaximize)], [variables = {}],
    [aux_counter = {"count": 0}]. *)
Definition initial_session : Session :=
  mkSession (mkLpProblem LpMaximize None []) ∅ 0%nat.

(** [problem += root, "Satisfiability"]: adding a variable makes it the
    objective. *)
Definition set_objective (root : LpVariable) (p : LpProblem) : LpProblem :=
  mkLpProblem (sense p) (Some (EVar root)) (constraints p).

Definition sat_to_ilp (equation : Formula)
    : Result (LpProblem * gmap string LpVariable) :=
  match process_set equation initial_session with
  | Return (root, st) => Return (set_objective root (problem st), variables st)
  | Raise e => Raise e
  end.

(** ** What a solution of the problem is *)

(** A solver's answer: a value per variable. *)
Definition Valuation : Type := LpVariable -> Z.

Fixpoint eval_expr (s : Valuation) (e : LpExpr) : Z :=
  match e with
  | EVar v => s v
  | EConst c => c
  | EAdd l r => eval_expr s l + eval_expr s r
  | ESub l r => eval_expr s l - eval_expr s r
  end.

Definition holds (s : Valuation) (c : LpConstraint) : Prop :=
  match c with
  | LpLe l r => eval_expr s l <= eval_expr s r
  | LpGe l r => eval_expr s l >= eval_expr s r
  | LpEq l r => eval_expr s l = eval_expr s r
  end.

(** Every variable is declared with bounds [0, 1] and category Binary. *)
Definition binary (s : Valuation) : Prop := forall v, s v = 0 \/ s v = 1.

Definition feasible (p : LpProblem) (s : Valuation) : Prop :=
  binary s /\ Forall (holds s) (constraints p).

Definition objective_value (p : LpProblem) (s : Valuation) : Z :=
  match objective p with
  | Some e => eval_expr s e
  | None => 0
  end.

(** [problem.variables()]: the variables that occur in the objective or in
    a constraint.  The solver gives a value to these and to no other
    variable. *)
Fixpoint expr_variables (e : LpExpr) : list LpVariable :=
  match e with
  | EVar v => [v]
  | EConst _ => []
  | EAdd l r | ESub l r => expr_variables l ++ expr_variables r
  end.

Definition constraint_variables (c : LpConstraint) : list LpVariable :=
  match c with
  | LpLe l r | LpGe l r | LpEq l r => expr_variables l ++ expr_variables r
  end.

Definition problem_variables (p : LpProblem) : list LpVariable :=
  match objective p with
  | Some e => expr_variables e
  | None => []
  end ++ flat_map constraint_variables (constraints p).

#[global] Instance LpVariable_eq_dec : EqDecision LpVariable.
Proof. solve_decision. Defined.

(** ** The names the solver sees *)

(** [LpElement.illegal_chars]: the name setter of a PuLP variable replaces
    each of these characters by an underscore. *)
Definition illegal_chars : string := "-+[] ->/".

Definition illegal_char (c : ascii) : bool :=
  existsb (Ascii.eqb c) (String.list_ascii_of_string illegal_chars).

(** [str(name).translate(self.trans)]. *)
Fixpoint translate (name : string) : string :=
  match name with
  | EmptyString => EmptyString
  | String c rest =>
      String (if illegal_char c then "_"%char else c) (translate rest)
  end.

(** The name under which the solver knows a variable: [f"x_{equation}"] and
    [f"aux_{count}"], as the name setter stores them. *)
Definition LpVariable_name (v : LpVariable) : string :=
  match v with
  | x_ name => translate ("x_" +:+ name)
  | aux_ count => translate ("aux_" +:+ pretty count)
  end.

(** Do two different variables of the list have the same name? *)
Definition duplicate_names (vs : list LpVariable) : bool :=
  existsb
    (fun v =>
       existsb
         (fun w =>
            negb (bool_decide (v = w))
            && String.eqb (LpVariable_name v) (LpVariable_name w))
         vs)
    vs.

(** ** The solver, an external collaborator *)

(** The keys of [LpStatus], read at [problem.status] after
    [problem.solve()]. *)
Inductive LpStatus : Type :=
  | NotSolved
  | Optimal
  | Infeasible
  | Unbounded
  | Undefined.

(** The contract of [problem.solve()] on a maximisation problem, for a
    solver that decides the problem: status Optimal comes with a feasible
    valuation whose objective value no feasible valuation exceeds; status
    Infeasible is reported only when no feasible valuation exists.  A problem
    over binary variables is never unbounded, and solver failures (time
    limits, missing backends) are outside this contract.  The contract is for
    problems whose variables have pairwise different names; on the others
    [problem.solve()] raises, see [solve_ilp]. *)
Inductive solve (p : LpProblem) : LpStatus -> Valuation -> Prop :=
  | solve_optimal (s : Valuation) :
      feasible p s ->
      (forall s', feasible p s' -> objective_value p s' <= objective_value p s) ->
      solve p Optimal s
  | solve_infeasible (s : Valuation) :
      (forall s', ~ feasible p s') ->
      solve p Infeasible s.

(** [bool(round(var.value()))]. *)
Definition bool_round (z : Z) : bool := negb (z =? 0).

(** [solve_ilp]: the outcomes the function can have, given what the solver
    may answer.  [problem.solve()] raises PulpSolverError when two variables
    of the problem have the same name.  With status Optimal the dictionary
    comprehension reads [var.value()] for every entry of [variables]; a
    variable that is not part of the problem has value [None], on which
    [round] raises TypeError. *)
Inductive solve_ilp (equation : Formula) : Result (gmap string bool) -> Prop :=
  | solve_ilp_encoder_raises e :
      sat_to_ilp equation = Raise e ->
      solve_ilp equation (Raise e)
  | solve_ilp_duplicate_names p vars :
      sat_to_ilp equation = Return (p, vars) ->
      duplicate_names (problem_variables p) = true ->
      solve_ilp equation (Raise PulpSolverError)
  | solve_ilp_optimal p vars s :
      sat_to_ilp equation = Return (p, vars) ->
      duplicate_names (problem_variables p) = false ->
      solve p Optimal s ->
      map_Forall (fun _ var => var ∈ problem_variables p) vars ->
      solve_ilp equation (Return ((fun var => bool_round (s var)) <$> vars))
  | solve_ilp_unvalued p vars s name var :
      sat_to_ilp equation = Return (p, vars) ->
      duplicate_names (problem_variables p) = false ->
      solve p Optimal s ->
      vars !! name = Some var ->
      var ∉ problem_variables p ->
      solve_ilp equation (Raise TypeError)
  | solve_ilp_no_solution p vars status s :
      sat_to_ilp equation = Return (p, vars) ->
      duplicate_names (problem_variables p) = false ->
      solve p status s ->
      status <> Optimal ->
      solve_ilp equation (Raise NoSolution).

(** ** The evaluator: [verify_sat] *)

(** [isinstance(v, str)]. *)
Definition is_str (v : Formula) : bool :=
  match v with
  | Literal _ => true
  | Gate _ _ => false
  end.

(** [input[v]]: a missing key raises KeyError; a [Set] is not hashable. *)
Definition getitem (input : gmap string bool) (v : Formula) : Result bool :=
  match v with
  | Literal name =>
      match input !! name with
      | Some b => Return b
      | None => Raise (KeyError name)
      end
  | Gate _ _ => Raise TypeError
  end.

(** [all(input[v] for v in values)]: the generator is consumed lazily, so
    the scan stops at the first false value. *)
Fixpoint all_input (input : gmap string bool) (values : list Formula)
    : Result bool :=
  match values with
  | [] => Return true
  | v :: rest =>
      match getitem input v with
      | Return true => all_input input rest
      | Return false => Return false
      | Raise e => Raise e
      end
  end.

(** [any(input[v] for v in values)]: stops at the first true value. *)
Fixpoint any_input (input : gmap string bool) (values : list Formula)
    : Result bool :=
  match values with
  | [] => Return false
  | v :: rest =>
      match getitem input v with
      | Return true => Return true
      | Return false => any_input input rest
      | Raise e => Raise e
      end
  end.

Definition use_operator_on_values (equation : Formula)
    (input : gmap string bool) : Result bool :=
  match equation with
  | Literal _ => Raise AttributeError
  | Gate NOT values =>
      match values with
      | [] => Raise IndexError
      | v :: _ =>
          match getitem input v with
          | Return b => Return (negb b)
          | Raise e => Raise e
          end
      end
  | Gate AND values => all_input input values
  | Gate OR values => any_input input values
  end.

Definition use_operator_on_booleans (operator : Operator)
    (booleans : list bool) : Result bool :=
  match operator with
  | NOT =>
      match booleans with
      | [] => Raise IndexError
      | b :: _ => Return (negb b)
      end
  | AND => Return (forallb id booleans)
  | OR => Return (existsb id booleans)
  end.

Section Comprehension.
Context {A B : Type} (f : A -> Result B).

(** [[f(v) for v in l]] outside the encoder: the list is built eagerly,
    left to right, and the first exception ends it. *)
Fixpoint comprehension (l : list A) : Result (list B) :=
  match l with
  | [] => Return []
  | a :: l' =>
      match f a with
      | Return b =>
          match comprehension l' with
          | Return bs => Return (b :: bs)
          | Raise e => Raise e
          end
      | Raise e => Raise e
      end
  end.
End Comprehension.

Fixpoint verify_sat (equation : Formula) (input : gmap string bool)
    : Result bool :=
  match equation with
  | Literal _ => Raise AttributeError
  | Gate op values =>
      if forallb is_str values
      then use_operator_on_values equation input
      else
        match comprehension (fun v => verify_sat v input) values with
        | Return booleans => use_operator_on_booleans op booleans
        | Raise e => Raise e
        end
  end.

(** ** Well-formed formulas *)

(** The arity discipline of a valid formula: NOT has exactly one operand,
    AND and OR have at least one, at every level.  The source states it only
    in a comment of the class [Set] and has no function that checks it. *)
Fixpoint validate (f : Formula) : bool :=
  match f with
  | Literal _ => true
  | Gate op vs =>
      match op with
      | NOT => (length vs =? 1)%nat
      | AND | OR => negb (length vs =? 0)%nat
      end
      && forallb validate vs
  end.

(** The boolean function a formula denotes, by one recursion over literal
    and gate operands alike: literals are looked up, AND is the conjunction
    of all operands, OR their disjunction, NOT negates its first operand.
    The encoding and the evaluator [verify_sat] are compared with it. *)
Fixpoint formula_value (lit : string -> bool) (f : Formula) : bool :=
  match f with
  | Literal name => lit name
  | Gate AND vs => forallb (formula_value lit) vs
  | Gate OR vs => existsb (formula_value lit) vs
  | Gate NOT vs =>
      match vs with
      | [] => true
      | v :: _ => negb (formula_value lit v)
      end
  end.

(** The literal names a formula references, in traversal order. *)
Fixpoint literals (f : Formula) : list string :=
  match f with
  | Literal name => [name]
  | Gate _ vs => flat_map literals vs
  end.

(** The gate occurrences of a formula in post-order: operands first, left to
    right, then the gate itself. *)
Fixpoint gates_postorder (f : Formula) : list Formula :=
  match f with
  | Literal _ => []
  | Gate _ vs => flat_map gates_postorder vs ++ [f]
  end.

(** Does the formula contain a NOT gate with no operand at all? *)
Fixpoint has_empty_not (f : Formula) : bool :=
  match f with
  | Literal _ => false
  | Gate op vs =>
      match op, vs with
      | NOT, [] => true
      | _, _ => existsb has_empty_not vs
      end
  end.

(** Gates whose operands are either all literals or all gates, at every
    level: the two cases [verify_sat] distinguishes. *)
Fixpoint uniform (f : Formula) : bool :=
  match f with
  | Literal _ => true
  | Gate _ vs =>
      (forallb is_str vs || negb (existsb is_str vs)) && forallb uniform vs
  end.

(** An assignment read as a total function (False where it has no value). *)
Definition assignment_values (input : gmap string bool) (name : string) : bool :=
  default false (input !! name).

(** The literal values a solver's answer stands for. *)
Definition literal_values (s : Valuation) (name : string) : bool :=
  bool_round (s (x_ name)).

(** The constraints one gate adds, as a list. *)
Definition gate_constraints (op : Operator) (aux_var : LpVariable)
    (values : list LpVariable) : list LpConstraint :=
  match op with
  | AND =>
      map (fun v => LpLe (EVar aux_var) (EVar v)) values ++
      [LpGe (EVar aux_var)
         (EAdd (ESub (sum values) (EConst (Z.of_nat (length values))))
            (EConst 1))]
  | OR =>
      map (fun v => LpGe (EVar aux_var) (EVar v)) values ++
      [LpLe (EVar aux_var) (sum values)]
  | NOT =>
      match values with
      | [] => []
      | v :: _ => [LpEq (EVar aux_var) (ESub (EConst 1) (EVar v))]
      end
  end.

(** The session after [problem += c] for each [c] of [cs]. *)
Definition with_constraints (st : Session) (cs : list LpConstraint) : Session :=
  mkSession
    (mkLpProblem (sense (problem st)) (objective (problem st))
       (constraints (problem st) ++ cs))
    (variables st) (aux_counter st).

(** The session after one [generate_aux_var]. *)
Definition bump (st : Session) : Session :=
  mkSession (problem st) (variables st) (S (aux_counter st)).

(** Every entry of [variables] is the decision variable of its key. *)
Definition vars_ok (st : Session) : Prop :=
  forall name v, variables st !! name = Some v -> v = x_ name.

(** The later session has the earlier one's problem, with constraints
    appended. *)
Definition grows (st st' : Session) : Prop :=
  exists cs, problem st' = problem (with_constraints st cs).

(** ** Which variables a constraint mentions *)

(** A decision variable, or an auxiliary variable allocated before the
    counter reached [c]. *)
Definition var_below (c : nat) (v : LpVariable) : Prop :=
  match v with
  | x_ _ => True
  | aux_ k => (k < c)%nat
  end.

Fixpoint expr_below (c : nat) (e : LpExpr) : Prop :=
  match e with
  | EVar v => var_below c v
  | EConst _ => True
  | EAdd l r | ESub l r => expr_below c l /\ expr_below c r
  end.

Definition constraint_below (c : nat) (k : LpConstraint) : Prop :=
  match k with
  | LpLe l r | LpGe l r | LpEq l r => expr_below c l /\ expr_below c r
  end.

(** The valuation [s] with the auxiliary variable numbered [k] set to [z]. *)
Definition set_aux (s : Valuation) (k : nat) (z : Z) : Valuation :=
  fun v =>
    match v with
    | x_ _ => s v
    | aux_ j => if (j =? k)%nat then z else s v
    end.

(** The valuation that gives each decision variable its literal's value and
    0 to every auxiliary variable. *)
Definition literal_valuation (lit : string -> bool) : Valuation :=
  fun v =>
    match v with
    | x_ name => Z.b2z (lit name)
    | aux_ _ => 0
    end.

(** ** The layout of an encoding *)

Inductive Relation : Type := LE | GE | EQ.

(** The variable on the left of a constraint and its relation sign. *)
Definition constraint_head (c : LpConstraint) : option (LpVariable * Relation) :=
  match c with
  | LpLe (EVar v) _ => Some (v, LE)
  | LpGe (EVar v) _ => Some (v, GE)
  | LpEq (EVar v) _ => Some (v, EQ)
  | _ => None
  end.

(** The heads of the constraints of the gate occurrence numbered [k]: for
    AND over n operands, n times [aux_k <=] then one [aux_k >=]; for OR, n
    times [aux_k >=] then one [aux_k <=]; for NOT, one [aux_k ==]. *)
Definition gate_heads (k : nat) (g : Formula)
    : list (option (LpVariable * Relation)) :=
  match g with
  | Literal _ => []
  | Gate AND vs => replicate (length vs) (Some (aux_ k, LE)) ++ [Some (aux_ k, GE)]
  | Gate OR vs => replicate (length vs) (Some (aux_ k, GE)) ++ [Some (aux_ k, LE)]
  | Gate NOT _ => [Some (aux_ k, EQ)]
  end.

(** The variable that stands for the whole formula when auxiliary variables
    are numbered from [c] on: the literal's decision variable, or the
    auxiliary variable of the last gate in post-order. *)
Definition root_variable (c : nat) (f : Formula) : LpVariable :=
  match f with
  | Literal name => x_ name
  | Gate _ _ => aux_ (c + length (gates_postorder f) - 1)
  end.

(** ** Formulas of the test suite and their encodings *)

(** [Set(operator=Operator.OR, values=["a"])] of [test_single_variable]. *)
Definition test_single_variable : Formula := Gate OR [Literal "a"].

(** What [sat_to_ilp] builds for it. *)
Definition test_single_variable_problem : LpProblem :=
  mkLpProblem LpMaximize (Some (EVar (aux_ 0)))
    [LpGe (EVar (aux_ 0)) (EVar (x_ "a"));
     LpLe (EVar (aux_ 0)) (EAdd (EConst 0) (EVar (x_ "a")))].

(** [Set(operator=Operator.AND, values=["a", "b"])] of [test_and_operator]. *)
Definition test_and_operator : Formula :=
  Gate AND [Literal "a"; Literal "b"].

(** [Set(operator=Operator.NOT, values=["a"])] of [test_not_operator]. *)
Definition test_not_operator : Formula := Gate NOT [Literal "a"].

(** The formula of [test_nested_and_or]: a gate whose operands are a gate
    and a literal. *)
Definition test_nested_and_or : Formula :=
  Gate OR [Gate AND [Literal "a"; Literal "b"]; Literal "c"].

(** ** Two unsatisfiable formulas *)

(** [Set(AND, ["a", Set(NOT, ["a"])])]: a and not a. *)
Definition contradiction : Formula :=
  Gate AND [Literal "a"; Gate NOT [Literal "a"]].

(** What [sat_to_ilp] builds for it: [aux_0] stands for the NOT gate,
    [aux_1] for the AND gate. *)
Definition contradiction_problem : LpProblem :=
  mkLpProblem LpMaximize (Some (EVar (aux_ 1)))
    [LpEq (EVar (aux_ 0)) (ESub (EConst 1) (EVar (x_ "a")));
     LpLe (EVar (aux_ 1)) (EVar (x_ "a"));
     LpLe (EVar (aux_ 1)) (EVar (aux_ 0));
     LpGe (EVar (aux_ 1))
       (EAdd
          (ESub (EAdd (EAdd (EConst 0) (EVar (x_ "a"))) (EVar (aux_ 0)))
             (EConst 2))
          (EConst 1))].

(** [Set(AND, [Set(NOT, ["a"]), Set(OR, ["a"])])]: the same contradiction
    with gate operands only, so that [verify_sat] evaluates it. *)
Definition gate_contradiction : Formula :=
  Gate AND [Gate NOT [Literal "a"]; Gate OR [Literal "a"]].

(** What [sat_to_ilp] builds for it: [aux_0] for NOT, [aux_1] for OR,
    [aux_2] for AND. *)
Definition gate_contradiction_problem : LpProblem :=
  mkLpProblem LpMaximize (Some (EVar (aux_ 2)))
    [LpEq (EVar (aux_ 0)) (ESub (EConst 1) (EVar (x_ "a")));
     LpGe (EVar (aux_ 1)) (EVar (x_ "a"));
     LpLe (EVar (aux_ 1)) (EAdd (EConst 0) (EVar (x_ "a")));
     LpLe (EVar (aux_ 2)) (EVar (aux_ 0));
     LpLe (EVar (aux_ 2)) (EVar (aux_ 1));
     LpGe (EVar (aux_ 2))
       (EAdd
          (ESub (EAdd (EAdd (EConst 0) (EVar (aux_ 0))) (EVar (aux_ 1)))
             (EConst 2))
          (EConst 1))].

(** A solver answer with [a] at 0: the NOT gate's variable is 1, every other
    variable 0. *)
Definition a_false : Valuation :=
  fun v =>
    match v with
    | aux_ 0 => 1
    | _ => 0
    end.

(** A NOT gate with two literal operands: ill-formed, and accepted by the
    encoder. *)
Definition not_two_operands : Formula := Gate NOT [Literal "a"; Literal "b"].

(** What [sat_to_ilp] builds for it: the second operand occurs nowhere. *)
Definition not_two_operands_problem : LpProblem :=
  mkLpProblem LpMaximize (Some (EVar (aux_ 0)))
    [LpEq (EVar (aux_ 0)) (ESub (EConst 1) (EVar (x_ "a")))].

(** A variable the session has declared: the decision variable of a
    literal recorded in [variables], or an auxiliary variable handed out by
    [generate_aux_var]. *)
Definition declared (st : Session) (v : LpVariable) : Prop :=
  match v with
  | x_ name => variables st !! name = Some (x_ name)
  | aux_ k => (k < aux_counter st)%nat
  end.

(** Every variable that occurs in a constraint of the session is declared. *)
Definition all_declared (st : Session) : Prop :=
  forall v,
    In v (flat_map constraint_variables (constraints (problem st))) ->
    declared st v.

(** ** The assertions of [TestSatToILP] *)

(** [Set(operator=Operator.OR, values=["a", "b"])] of [test_or_operator]. *)
Definition test_or_operator : Formula := Gate OR [Literal "a"; Literal "b"].

(** The formula of [test_complex_nested_expression] and of the example run
    of [sat2.py]: NOT((a AND b) OR NOT c). *)
Definition test_complex_nested_expression : Formula :=
  Gate NOT
    [Gate OR [Gate AND [Literal "a"; Literal "b"]; Gate NOT [Literal "c"]]].

(** [self.assertTrue(solution[key])] and [self.assertFalse(solution[key])]:
    the key is there and has that value. *)
Definition assertTrue_at (solution : gmap string bool) (key : string) : Prop :=
  solution !! key = Some true.

Definition assertFalse_at (solution : gmap string bool) (key : string) : Prop :=
  solution !! key = Some false.

(** [self.assertFalse(solution[k1] and solution[k2])]: [and] reads the
    second key only when the first value is true. *)
Definition assertFalse_and (solution : gmap string bool) (k1 k2 : string)
    : Prop :=
  solution !! k1 = Some false
  \/ (solution !! k1 = Some true /\ solution !! k2 = Some false).

(** [self.assertTrue(any(solution.values()))]. *)
Definition assertTrue_any (solution : gmap string bool) : Prop :=
  exists key, solution !! key = Some true.

(** A test method passes on an outcome of [solve_ilp] when the call returned
    and the assertions hold of the solution. *)
Definition passes (r : Result (gmap string bool))
    (assertions : gmap string bool -> Prop) : Prop :=
  exists solution, r = Return solution /\ assertions solution.

(** ** Renaming auxiliary variables *)

(** Auxiliary variable numbers moved up by [d]; decision variables kept. *)
Definition shift_var (d : nat) (v : LpVariable) : LpVariable :=
  match v with
  | x_ name => x_ name
  | aux_ k => aux_ (d + k)
  end.

Fixpoint shift_expr (d : nat) (e : LpExpr) : LpExpr :=
  match e with
  | EVar v => EVar (shift_var d v)
  | EConst c => EConst c
  | EAdd l r => EAdd (shift_expr d l) (shift_expr d r)
  | ESub l r => ESub (shift_expr d l) (shift_expr d r)
  end.

Definition shift_constraint (d : nat) (c : LpConstraint) : LpConstraint :=
  match c with
  | LpLe l r => LpLe (shift_expr d l) (shift_expr d r)
  | LpGe l r => LpGe (shift_expr d l) (shift_expr d r)
  | LpEq l r => LpEq (shift_expr d l) (shift_expr d r)
  end.

(** Do the literal names of the formula stay pairwise different under
    [translate]? *)
Definition distinct_names (f : Formula) : bool :=
  forallb
    (fun n =>
       forallb
         (fun m => String.eqb n m || negb (String.eqb (translate n) (translate m)))
         (literals f))
    (literals f).

(** [Set(OR, ["a b", "a_b"])]: two literals that the solver both knows as
    [x_a_b]. *)
Definition colliding_names : Formula := Gate OR [Literal "a b"; Literal "a_b"].

(** ** Deciding satisfiability by enumeration *)

(** Every assignment of the given names, the other names being False. *)
Fixpoint assignments (names : list string) : list (string -> bool) :=
  match names with
  | [] => [fun _ => false]
  | n :: rest =>
      flat_map
        (fun lit =>
           [fun m => if String.eqb m n then true else lit m;
            fun m => if String.eqb m n then false else lit m])
        (assignments rest)
  end.

(** Does some assignment of the formula's literals make it true? *)
Definition satisfiable (f : Formula) : bool :=
  existsb (fun lit => formula_value lit f) (assignments (literals f)).

(** * Properties *)

(** ** The monad and the constraint emitters *)

Lemma with_constraints_nil st : with_constraints st [] = st.
Proof.
  destruct st as [[? ? ?] ? ?]. unfold with_constraints. simpl.
  by rewrite app_nil_r.
Qed.

Lemma with_constraints_app st cs1 cs2 :
  with_constraints (with_constraints st cs1) cs2 = with_constraints st (cs1 ++ cs2).
Proof. unfold with_constraints. simpl. by rewrite app_assoc. Qed.

Lemma forM_add_constraint {A} (g : A -> LpConstraint) (l : list A) st :
  forM_ (fun v => add_constraint (g v)) l st
  = Return (tt, with_constraints st (map g l)).
Proof.
  revert st. induction l as [|a l IH]; intros st; simpl.
  - unfold ret. by rewrite with_constraints_nil.
  - unfold bind at 1. unfold add_constraint at 1.
    change (mkSession _ _ _) with (with_constraints st [g a]).
    rewrite IH, with_constraints_app. reflexivity.
Qed.

Lemma emit_gate_Return op a values st :
  (op = NOT -> values <> []) ->
  emit_gate op a values st
  = Return (tt, with_constraints st (gate_constraints op a values)).
Proof.
  intros Hne. destruct op; simpl.
  - unfold bind. rewrite forM_add_constraint. unfold add_constraint.
    f_equal. f_equal. unfold with_constraints. simpl. by rewrite app_assoc.
  - unfold bind. rewrite forM_add_constraint. unfold add_constraint.
    f_equal. f_equal. unfold with_constraints. simpl. by rewrite app_assoc.
  - destruct values as [|v rest]; [by destruct Hne|]. reflexivity.
Qed.

(** [process_set] on a gate, one step unfolded. *)
Lemma process_set_Gate op vs st :
  process_set (Gate op vs) st =
  match mapM process_set vs st with
  | Return (values, st1) =>
      match emit_gate op (aux_ (aux_counter st1)) values (bump st1) with
      | Return (_, st2) => Return (aux_ (aux_counter st1), st2)
      | Raise e => Raise e
      end
  | Raise e => Raise e
  end.
Proof.
  simpl. unfold bind at 1.
  destruct (mapM process_set vs st) as [[values st1]|e]; [|reflexivity].
  unfold bind at 1. unfold generate_aux_var at 1.
  unfold bind, bump, ret.
  destruct (emit_gate _ _ _ _) as [[[] st2]|e]; reflexivity.
Qed.

Lemma mapM_cons {A B} (f : A -> M B) a l st :
  mapM f (a :: l) st =
  match f a st with
  | Return (b, st1) =>
      match mapM f l st1 with
      | Return (bs, st2) => Return (b :: bs, st2)
      | Raise e => Raise e
      end
  | Raise e => Raise e
  end.
Proof.
  simpl. unfold bind at 1. destruct (f a st) as [[b st1]|e]; [|reflexivity].
  unfold bind, ret. destruct (mapM f l st1) as [[bs st2]|e]; reflexivity.
Qed.

Lemma mapM_length {A B} (f : A -> M B) l st bs st' :
  mapM f l st = Return (bs, st') -> length bs = length l.
Proof.
  revert st bs. induction l as [|a l IH]; intros st bs.
  - by intros [= <- <-].
  - rewrite mapM_cons.
    destruct (f a st) as [[b st1]|e]; [|discriminate].
    destruct (mapM f l st1) as [[bs' st2]|e] eqn:E; [|discriminate].
    intros [= <- <-]. simpl. f_equal. by eapply IH.
Qed.

Lemma literals_operand op vs v k :
  In v vs -> In k (literals v) -> In k (literals (Gate op vs)).
Proof. intros Hv Hk. simpl. apply in_flat_map. eauto. Qed.

(** ** What the constraints of one gate mean *)

Lemma binary_bool_round s v : binary s -> s v = Z.b2z (bool_round (s v)).
Proof. intros Hb. unfold bool_round. destruct (Hb v) as [-> | ->]; reflexivity. Qed.

Lemma eval_sum_from s values acc :
  eval_expr s (fold_left (fun acc v => EAdd acc (EVar v)) values acc)
  = eval_expr s acc + foldr (fun v z => s v + z) 0 values.
Proof.
  revert acc. induction values as [|v values IH]; intros acc; simpl.
  - lia.
  - rewrite IH. simpl. lia.
Qed.

Lemma eval_sum s values :
  eval_expr s (sum values) = foldr (fun v z => s v + z) 0 values.
Proof. unfold sum. rewrite eval_sum_from. simpl. lia. Qed.

Lemma total_bounds s values :
  binary s ->
  0 <= foldr (fun v z => s v + z) 0 values <= Z.of_nat (length values).
Proof.
  intros Hb. induction values as [|v values IH]; simpl; [lia|].
  destruct (Hb v); lia.
Qed.

Lemma total_all_true s values :
  binary s ->
  forallb (fun v => bool_round (s v)) values = true ->
  foldr (fun v z => s v + z) 0 values = Z.of_nat (length values).
Proof.
  intros Hb. induction values as [|v values IH]; simpl; [reflexivity|].
  intros [Hv Hrest]%andb_prop. rewrite (IH Hrest).
  unfold bool_round in Hv. destruct (Hb v) as [E | E]; rewrite E in *; [discriminate | lia].
Qed.

Lemma total_none_true s values :
  binary s ->
  existsb (fun v => bool_round (s v)) values = false ->
  foldr (fun v z => s v + z) 0 values = 0.
Proof.
  intros Hb. induction values as [|v values IH]; simpl; [reflexivity|].
  intros [Hv Hrest]%orb_false_elim. rewrite (IH Hrest).
  unfold bool_round in Hv. destruct (Hb v) as [E | E]; rewrite E in *; [lia | discriminate].
Qed.

Lemma forallb_id_map {A} (g : A -> bool) l : forallb id (map g l) = forallb g l.
Proof. induction l as [|a l IH]; simpl; [reflexivity|]. by rewrite IH. Qed.

Lemma existsb_id_map {A} (g : A -> bool) l : existsb id (map g l) = existsb g l.
Proof. induction l as [|a l IH]; simpl; [reflexivity|]. by rewrite IH. Qed.

Lemma and_meaning s a values :
  binary s ->
  Forall (holds s) (gate_constraints AND a values) ->
  bool_round (s a) = forallb (fun v => bool_round (s v)) values.
Proof.
  intros Hb [Hle Hge]%Forall_app. simpl in Hle, Hge.
  rewrite Forall_singleton in Hge. simpl in Hge.
  rewrite eval_sum in Hge.
  destruct (forallb _ values) eqn:Hall.
  - rewrite (total_all_true _ _ Hb Hall) in Hge.
    unfold bool_round. destruct (Hb a) as [E | E]; rewrite E in *; [lia | reflexivity].
  - assert (exists v, v ∈ values /\ bool_round (s v) = false) as (v & Hin & Hv).
    { clear -Hall. induction values as [|v values IH]; simpl in Hall; [discriminate|].
      apply andb_false_iff in Hall as [Hv | Hrest].
      - exists v. split; [left | done].
      - destruct (IH Hrest) as (w & Hin & Hw). exists w. split; [by right | done]. }
    rewrite Forall_forall in Hle.
    specialize (Hle (LpLe (EVar a) (EVar v))).
    assert (holds s (LpLe (EVar a) (EVar v))) as Hav.
    { apply Hle. apply list_elem_of_fmap. by exists v. }
    simpl in Hav. unfold bool_round in *.
    destruct (Hb a) as [E | E], (Hb v) as [E' | E']; rewrite ?E, ?E' in *;
      simpl in *; try reflexivity; try discriminate; lia.
Qed.

Lemma or_meaning s a values :
  binary s ->
  Forall (holds s) (gate_constraints OR a values) ->
  bool_round (s a) = existsb (fun v => bool_round (s v)) values.
Proof.
  intros Hb [Hge Hle]%Forall_app. simpl in Hle, Hge.
  rewrite Forall_singleton in Hle. simpl in Hle. rewrite eval_sum in Hle.
  destruct (existsb _ values) eqn:Hany.
  - apply existsb_exists in Hany as (v & Hin & Hv).
    rewrite Forall_forall in Hge.
    assert (holds s (LpGe (EVar a) (EVar v))) as Hav.
    { apply Hge. apply list_elem_of_fmap. exists v. split; [done|].
      by apply list_elem_of_In. }
    simpl in Hav. unfold bool_round in *.
    destruct (Hb a) as [E | E], (Hb v) as [E' | E']; rewrite ?E, ?E' in *;
      simpl in *; try reflexivity; try discriminate; lia.
  - rewrite (total_none_true _ _ Hb Hany) in Hle.
    unfold bool_round. destruct (Hb a) as [E | E]; rewrite E in *; [reflexivity | lia].
Qed.

Lemma not_meaning s a v rest :
  binary s ->
  Forall (holds s) (gate_constraints NOT a (v :: rest)) ->
  bool_round (s a) = negb (bool_round (s v)).
Proof.
  intros Hb Hc. simpl in Hc. rewrite Forall_singleton in Hc. simpl in Hc.
  unfold bool_round.
  destruct (Hb a) as [E | E], (Hb v) as [E' | E']; rewrite ?E, ?E' in *;
    simpl in *; try reflexivity; lia.
Qed.

(** In every 0/1 solution of one gate's constraints, the auxiliary variable
    carries the value that [use_operator_on_booleans] computes from the
    operands' values. *)
Lemma gate_meaning op s a values :
  binary s ->
  (op = NOT -> values <> []) ->
  Forall (holds s) (gate_constraints op a values) ->
  use_operator_on_booleans op (map (fun v => bool_round (s v)) values)
  = Return (bool_round (s a)).
Proof.
  intros Hb Hne Hc. destruct op; simpl.
  - by rewrite forallb_id_map, (and_meaning _ _ _ Hb Hc).
  - by rewrite existsb_id_map, (or_meaning _ _ _ Hb Hc).
  - destruct values as [|v rest]; [by destruct Hne|]. simpl.
    by rewrite (not_meaning _ _ _ _ Hb Hc).
Qed.

Lemma total_some_false s values :
  binary s ->
  forallb (fun v => bool_round (s v)) values = false ->
  foldr (fun v z => s v + z) 0 values <= Z.of_nat (length values) - 1.
Proof.
  intros Hb. induction values as [|v values IH]; simpl foldr; simpl forallb;
    [discriminate|].
  pose proof (total_bounds s values Hb) as Hbound.
  rewrite length_cons, Nat2Z.inj_succ.
  unfold bool_round at 1. destruct (Hb v) as [-> | ->]; simpl.
  - intros _. lia.
  - intros H. specialize (IH H). lia.
Qed.

Lemma total_some_true s values :
  binary s ->
  existsb (fun v => bool_round (s v)) values = true ->
  1 <= foldr (fun v z => s v + z) 0 values.
Proof.
  intros Hb. induction values as [|v values IH]; simpl foldr; simpl existsb;
    [discriminate|].
  pose proof (total_bounds s values Hb) as Hbound.
  unfold bool_round at 1. destruct (Hb v) as [-> | ->]; simpl.
  - intros H. specialize (IH H). lia.
  - intros _. lia.
Qed.

(** The converse of [gate_meaning]: a 0/1 valuation whose auxiliary variable
    carries the gate's value satisfies the gate's constraints. *)
Lemma gate_complete op s a values :
  binary s ->
  (op = NOT -> values <> []) ->
  use_operator_on_booleans op (map (fun v => bool_round (s v)) values)
  = Return (bool_round (s a)) ->
  Forall (holds s) (gate_constraints op a values).
Proof.
  intros Hb Hne. pose proof (Hb a) as Ha. destruct op; simpl.
  - rewrite forallb_id_map. intros [= Hval]. apply Forall_app. split.
    + apply Forall_fmap, Forall_forall. intros v Hin.
      cbn [compose holds eval_expr]. pose proof (Hb v) as Hv.
      destruct Ha as [Ea | Ea]; [lia|].
      unfold bool_round at 2 in Hval. rewrite Ea in Hval. simpl in Hval.
      rewrite forallb_forall in Hval.
      specialize (Hval v (proj1 (list_elem_of_In _ _) Hin)).
      unfold bool_round in Hval. destruct Hv as [Ev | Ev]; rewrite Ev in *;
        [simpl in Hval; discriminate Hval | lia].
    + constructor; [|constructor]. cbn [holds eval_expr]. rewrite eval_sum.
      pose proof (total_bounds s values Hb) as Hbound.
      destruct (forallb _ values) eqn:Hall.
      * rewrite (total_all_true s values Hb Hall).
        unfold bool_round in Hval. destruct Ha as [Ea | Ea]; rewrite Ea in *;
          [simpl in Hval; discriminate Hval | lia].
      * pose proof (total_some_false s values Hb Hall).
        unfold bool_round in Hval. destruct Ha as [Ea | Ea]; rewrite Ea in *;
          [lia | simpl in Hval; discriminate Hval].
  - rewrite existsb_id_map. intros [= Hval]. apply Forall_app. split.
    + apply Forall_fmap, Forall_forall. intros v Hin.
      cbn [compose holds eval_expr]. pose proof (Hb v) as Hv.
      destruct Ha as [Ea | Ea]; [|lia].
      unfold bool_round at 2 in Hval. rewrite Ea in Hval. simpl in Hval.
      destruct Hv as [Ev | Ev]; [lia|].
      assert (existsb (fun v => bool_round (s v)) values = true) as Hex; [|congruence].
      apply existsb_exists. exists v. split; [by apply list_elem_of_In|].
      unfold bool_round. by rewrite Ev.
    + constructor; [|constructor]. cbn [holds eval_expr]. rewrite eval_sum.
      pose proof (total_bounds s values Hb) as Hbound.
      destruct (existsb _ values) eqn:Hany.
      * pose proof (total_some_true s values Hb Hany).
        destruct Ha as [Ea | Ea]; lia.
      * rewrite (total_none_true s values Hb Hany).
        unfold bool_round in Hval. destruct Ha as [Ea | Ea]; rewrite Ea in *;
          [lia | simpl in Hval; discriminate Hval].
  - destruct values as [|v rest]; [by destruct Hne|]. simpl.
    intros [= Hval]. constructor; [|constructor]. cbn [holds eval_expr].
    unfold bool_round in Hval.
    destruct Ha as [Ea | Ea], (Hb v) as [Ev | Ev]; rewrite Ea, Ev in *;
      simpl in Hval; try discriminate Hval; lia.
Qed.

Lemma formula_value_Gate lit op vs :
  (op = NOT -> vs <> []) ->
  use_operator_on_booleans op (map (formula_value lit) vs)
  = Return (formula_value lit (Gate op vs)).
Proof.
  intros Hne. destruct op; simpl.
  - by rewrite forallb_id_map.
  - by rewrite existsb_id_map.
  - destruct vs as [|v rest]; [by destruct Hne|]. reflexivity.
Qed.

(** ** The encoder keeps what it emitted, and its solutions carry the
    formula's value *)

Lemma grows_refl st : grows st st.
Proof. exists []. by rewrite with_constraints_nil. Qed.

Lemma grows_trans st1 st2 st3 : grows st1 st2 -> grows st2 st3 -> grows st1 st3.
Proof.
  intros [cs1 H1] [cs2 H2]. exists (cs1 ++ cs2).
  rewrite H2. unfold with_constraints. simpl. rewrite H1. simpl.
  by rewrite app_assoc.
Qed.

Lemma grows_holds st st' s :
  grows st st' ->
  Forall (holds s) (constraints (problem st')) ->
  Forall (holds s) (constraints (problem st)).
Proof.
  intros [cs H]. rewrite H. simpl. by intros [? ?]%Forall_app.
Qed.

Lemma process_literal_inv name st v st' :
  vars_ok st ->
  process_literal name st = Return (v, st') ->
  v = x_ name /\ vars_ok st' /\ problem st' = problem st
  /\ aux_counter st' = aux_counter st.
Proof.
  intros Hok. unfold process_literal.
  destruct (variables st !! name) as [w|] eqn:Hlk; intros [= <- <-].
  - split; [by apply Hok | done].
  - split; [done|]. split; [|done].
    intros n w. simpl. rewrite lookup_insert.
    case_decide as Hn; [|by apply Hok]. subst. by intros [= <-].
Qed.

Lemma process_set_Gate_inv op vs st v st2 :
  process_set (Gate op vs) st = Return (v, st2) ->
  exists values st1,
    mapM process_set vs st = Return (values, st1)
    /\ (op = NOT -> values <> [])
    /\ v = aux_ (aux_counter st1)
    /\ st2 = with_constraints (bump st1) (gate_constraints op v values).
Proof.
  rewrite process_set_Gate.
  destruct (mapM process_set vs st) as [[values st1]|e]; [|discriminate].
  intros H. exists values, st1. split; [done|].
  assert (op = NOT -> values <> []) as Hne.
  { intros -> ->. simpl in H. discriminate. }
  split; [done|]. rewrite (emit_gate_Return _ _ _ _ Hne) in H.
  by injection H as <- <-.
Qed.

Lemma mapM_process_set_sound vs :
  Forall (fun f => forall st v st',
    vars_ok st -> process_set f st = Return (v, st') ->
    vars_ok st' /\ grows st st' /\
    forall s, binary s -> Forall (holds s) (constraints (problem st')) ->
      bool_round (s v) = formula_value (literal_values s) f) vs ->
  forall st values st1,
    vars_ok st -> mapM process_set vs st = Return (values, st1) ->
    vars_ok st1 /\ grows st st1 /\
    forall s, binary s -> Forall (holds s) (constraints (problem st1)) ->
      map (fun v => bool_round (s v)) values
      = map (formula_value (literal_values s)) vs.
Proof.
  induction 1 as [|f vs Hf _ IH]; intros st values st1 Hok.
  - intros [= <- <-]. split; [done|]. split; [apply grows_refl | done].
  - rewrite mapM_cons.
    destruct (process_set f st) as [[v sta]|e] eqn:Ef; [|discriminate].
    destruct (mapM process_set vs sta) as [[vals stb]|e] eqn:Evs; [|discriminate].
    intros [= <- <-].
    destruct (Hf _ _ _ Hok Ef) as (Hoka & Hga & Hva).
    destruct (IH _ _ _ Hoka Evs) as (Hokb & Hgb & Hvb).
    split; [done|]. split; [by eapply grows_trans|].
    intros s Hb Hc. simpl. f_equal.
    + apply Hva; [done|]. by eapply grows_holds.
    + by apply Hvb.
Qed.

(** Tseitin soundness: in every 0/1 solution of the constraints emitted so
    far, the variable returned for a formula carries the formula's value at
    the literal values of that solution. *)
Lemma process_set_sound f :
  forall st v st',
    vars_ok st -> process_set f st = Return (v, st') ->
    vars_ok st' /\ grows st st' /\
    forall s, binary s -> Forall (holds s) (constraints (problem st')) ->
      bool_round (s v) = formula_value (literal_values s) f.
Proof.
  induction f as [name | op vs IH] using Formula_nested_ind;
    intros st v st' Hok H.
  - destruct (process_literal_inv _ _ _ _ Hok H) as (-> & Hok' & Hp & _).
    split; [done|]. split.
    + exists []. rewrite with_constraints_nil. done.
    + done.
  - apply process_set_Gate_inv in H as (values & st1 & Hvs & Hne & -> & ->).
    destruct (mapM_process_set_sound _ IH _ _ _ Hok Hvs) as (Hok1 & Hg1 & Hv1).
    split; [done|]. split.
    { eapply grows_trans; [exact Hg1|]. by eexists. }
    intros s Hb Hc. simpl in Hc. apply Forall_app in Hc as [Hc1 Hc2].
    pose proof (gate_meaning _ _ _ _ Hb Hne Hc2) as Hm.
    rewrite (Hv1 s Hb Hc1) in Hm.
    rewrite formula_value_Gate in Hm.
    + by injection Hm as <-.
    + intros -> ->. apply Hne; [done|].
      apply mapM_length in Hvs. by destruct values.
Qed.

Lemma vars_ok_initial : vars_ok initial_session.
Proof. intros name v. simpl. by rewrite lookup_empty. Qed.

(** ** Layout: post-order numbering, one block of constraints per gate *)

Lemma map_heads_replicate {A} (g : A -> LpConstraint) h (l : list A) :
  (forall a, constraint_head (g a) = h) ->
  map constraint_head (map g l) = replicate (length l) h.
Proof.
  intros Hg. induction l as [|a l IH]; simpl; [reflexivity|].
  by rewrite IH, Hg.
Qed.

Lemma gate_constraints_heads op k values vs :
  length values = length vs ->
  (op = NOT -> values <> []) ->
  map constraint_head (gate_constraints op (aux_ k) values)
  = gate_heads k (Gate op vs).
Proof.
  intros Hlen Hne. destruct op; simpl.
  - rewrite map_app, (map_heads_replicate _ (Some (aux_ k, LE))), Hlen; done.
  - rewrite map_app, (map_heads_replicate _ (Some (aux_ k, GE))), Hlen; done.
  - destruct values; [by destruct Hne | reflexivity].
Qed.

Lemma mapM_process_set_layout vs :
  Forall (fun f => forall st v st',
    vars_ok st -> process_set f st = Return (v, st') ->
    aux_counter st' = (aux_counter st + length (gates_postorder f))%nat
    /\ v = root_variable (aux_counter st) f
    /\ exists cs,
         problem st' = problem (with_constraints st cs)
         /\ map constraint_head cs
            = concat (imap (fun i => gate_heads (aux_counter st + i))
                        (gates_postorder f))) vs ->
  forall st values st1,
    vars_ok st -> mapM process_set vs st = Return (values, st1) ->
    aux_counter st1
    = (aux_counter st + length (flat_map gates_postorder vs))%nat
    /\ exists cs,
         problem st1 = problem (with_constraints st cs)
         /\ map constraint_head cs
            = concat (imap (fun i => gate_heads (aux_counter st + i))
                        (flat_map gates_postorder vs)).
Proof.
  induction 1 as [|f vs Hf _ IH]; intros st values st1 Hok.
  - intros [= <- <-]. split; [simpl; lia|].
    exists []. rewrite with_constraints_nil. split; reflexivity.
  - rewrite mapM_cons.
    destruct (process_set f st) as [[v sta]|e] eqn:Ef; [|discriminate].
    destruct (mapM process_set vs sta) as [[vals stb]|e] eqn:Evs; [|discriminate].
    intros [= <- <-].
    destruct (Hf _ _ _ Hok Ef) as (Hca & _ & csa & Hpa & Hha).
    destruct (process_set_sound f _ _ _ Hok Ef) as (Hoka & _ & _).
    destruct (IH _ _ _ Hoka Evs) as (Hcb & csb & Hpb & Hhb).
    simpl flat_map. rewrite length_app. split; [lia|].
    exists (csa ++ csb). split.
    + rewrite Hpb. unfold with_constraints. simpl. rewrite Hpa. simpl.
      by rewrite app_assoc.
    + rewrite map_app, imap_app, concat_app, Hha, Hhb. f_equal. f_equal.
      apply imap_ext. intros i g _. simpl. f_equal. lia.
Qed.

Lemma process_set_layout f :
  forall st v st',
    vars_ok st -> process_set f st = Return (v, st') ->
    aux_counter st' = (aux_counter st + length (gates_postorder f))%nat
    /\ v = root_variable (aux_counter st) f
    /\ exists cs,
         problem st' = problem (with_constraints st cs)
         /\ map constraint_head cs
            = concat (imap (fun i => gate_heads (aux_counter st + i))
                        (gates_postorder f)).
Proof.
  induction f as [name | op vs IH] using Formula_nested_ind;
    intros st v st' Hok H.
  - destruct (process_literal_inv _ _ _ _ Hok H) as (-> & _ & Hp & Hc).
    split; [simpl; lia|]. split; [reflexivity|].
    exists []. rewrite with_constraints_nil. split; [done | reflexivity].
  - apply process_set_Gate_inv in H as (values & st1 & Hvs & Hne & -> & ->).
    destruct (mapM_process_set_layout _ IH _ _ _ Hok Hvs) as (Hc1 & cs1 & Hp1 & Hh1).
    pose proof (mapM_length _ _ _ _ _ Hvs) as Hlen.
    simpl gates_postorder. rewrite length_app. split; [simpl; lia|].
    split.
    { unfold root_variable. simpl gates_postorder. rewrite length_app. simpl.
      f_equal. lia. }
    exists (cs1 ++ gate_constraints op (aux_ (aux_counter st1)) values).
    split.
    + unfold with_constraints. simpl. rewrite Hp1. simpl. by rewrite app_assoc.
    + rewrite map_app, imap_app, concat_app, Hh1. f_equal.
      simpl. rewrite app_nil_r.
      rewrite (gate_constraints_heads _ _ _ vs Hlen Hne).
      rewrite Hc1, Nat.add_0_r. reflexivity.
Qed.

Lemma mapM_process_set_variables vs :
  Forall (fun f => forall st v st',
    process_set f st = Return (v, st') ->
    forall name,
      variables st' !! name =
      match variables st !! name with
      | Some w => Some w
      | None => if bool_decide (name ∈ literals f) then Some (x_ name) else None
      end) vs ->
  forall st values st1,
    mapM process_set vs st = Return (values, st1) ->
    forall name,
      variables st1 !! name =
      match variables st !! name with
      | Some w => Some w
      | None =>
          if bool_decide (name ∈ flat_map literals vs)
          then Some (x_ name) else None
      end.
Proof.
  induction 1 as [|f vs Hf _ IH]; intros st values st1.
  - intros [= <- <-] name. destruct (variables st !! name); [done|].
    change (flat_map literals []) with (@nil string).
    rewrite bool_decide_eq_false_2; [done|]. apply not_elem_of_nil.
  - rewrite mapM_cons.
    destruct (process_set f st) as [[v sta]|e] eqn:Ef; [|discriminate].
    destruct (mapM process_set vs sta) as [[vals stb]|e] eqn:Evs; [|discriminate].
    intros [= <- <-] name.
    rewrite (IH _ _ _ Evs name), (Hf _ _ _ Ef name).
    destruct (variables st !! name); [done|]. simpl flat_map.
    rewrite (bool_decide_ext _ _ (elem_of_app _ _ name)), bool_decide_or.
    by destruct (bool_decide (name ∈ literals f)).
Qed.

Lemma process_set_variables f :
  forall st v st',
    process_set f st = Return (v, st') ->
    forall name,
      variables st' !! name =
      match variables st !! name with
      | Some w => Some w
      | None => if bool_decide (name ∈ literals f) then Some (x_ name) else None
      end.
Proof.
  induction f as [n | op vs IH] using Formula_nested_ind; intros st v st' H name.
  - simpl in H. unfold process_literal in H.
    destruct (variables st !! n) as [w|] eqn:E; injection H as <- <-.
    + destruct (variables st !! name) eqn:E'; [done|]. simpl.
      rewrite bool_decide_eq_false_2; [done|].
      intros ->%list_elem_of_singleton. congruence.
    + simpl. rewrite lookup_insert. case_decide as Hn.
      * subst. rewrite E. rewrite bool_decide_eq_true_2; [done|].
        by apply list_elem_of_singleton.
      * destruct (variables st !! name); [done|].
        rewrite bool_decide_eq_false_2; [done|].
        intros ->%list_elem_of_singleton. done.
  - apply process_set_Gate_inv in H as (values & st1 & Hvs & _ & -> & ->).
    simpl. apply (mapM_process_set_variables _ IH _ _ _ Hvs).
Qed.

(** C9: the encoding is a function of the formula alone: every call starts
    from [initial_session] (counter 0, empty [variables]).  Its layout
    follows the post-order of the gate occurrences: the k-th gate in
    post-order owns [aux_k] and one block of constraints, of the number and
    signs its operator and operand count dictate, the blocks coming in that
    order; the root is the last gate's variable (the literal's variable for
    a bare literal); [variables] holds exactly the literals of the formula,
    each bound to its own decision variable. *)
Theorem encoding_is_postorder_layout f p vars :
  sat_to_ilp f = Return (p, vars) ->
  objective p = Some (EVar (root_variable 0 f))
  /\ map constraint_head (constraints p)
     = concat (imap gate_heads (gates_postorder f))
  /\ (forall name,
        vars !! name
        = if bool_decide (name ∈ literals f) then Some (x_ name) else None)
  /\ forall p' vars', sat_to_ilp f = Return (p', vars') -> p' = p /\ vars' = vars.
Proof.
  intros H. split; [|split; [|split]].
  - unfold sat_to_ilp in H.
    destruct (process_set f initial_session) as [[root st]|e] eqn:E; [|discriminate].
    injection H as <- <-.
    destruct (process_set_layout f _ _ _ vars_ok_initial E) as (_ & -> & _).
    reflexivity.
  - unfold sat_to_ilp in H.
    destruct (process_set f initial_session) as [[root st]|e] eqn:E; [|discriminate].
    injection H as <- <-.
    destruct (process_set_layout f _ _ _ vars_ok_initial E) as (_ & _ & cs & Hp & Hh).
    simpl. rewrite Hp. simpl. exact Hh.
  - unfold sat_to_ilp in H.
    destruct (process_set f initial_session) as [[root st]|e] eqn:E; [|discriminate].
    injection H as <- <-. intros name.
    rewrite (process_set_variables f _ _ _ E name). simpl.
    by rewrite lookup_empty.
  - intros p' vars' H'. rewrite H in H'. by injection H' as <- <-.
Qed.

Lemma encoding_is_postorder_layout_witness :
  sat_to_ilp contradiction = Return (contradiction_problem, {["a" := x_ "a"]})
  /\ objective contradiction_problem = Some (EVar (aux_ 1))
  /\ map constraint_head (constraints contradiction_problem)
     = [Some (aux_ 0%nat, EQ);
        Some (aux_ 1%nat, LE); Some (aux_ 1%nat, LE); Some (aux_ 1%nat, GE)].
Proof.
  split; [reflexivity|].
  destruct (encoding_is_postorder_layout contradiction contradiction_problem
              {["a" := x_ "a"]} eq_refl) as (Hroot & Hheads & _).
  split; [exact Hroot | exact Hheads].
Defined.

(** ** Every literal assignment extends to a solution *)

Lemma var_below_le c c' v : (c <= c')%nat -> var_below c v -> var_below c' v.
Proof. destruct v; simpl; [done | lia]. Qed.

Lemma expr_below_le c c' e : (c <= c')%nat -> expr_below c e -> expr_below c' e.
Proof.
  intros Hle. induction e; simpl; try tauto. by apply var_below_le.
Qed.

Lemma constraint_below_le c c' k :
  (c <= c')%nat -> constraint_below c k -> constraint_below c' k.
Proof.
  intros Hle. destruct k; simpl; intros [? ?]; split; by eapply expr_below_le.
Qed.

Lemma eval_expr_agree c s s' e :
  (forall v, var_below c v -> s' v = s v) ->
  expr_below c e -> eval_expr s' e = eval_expr s e.
Proof.
  intros Hs. induction e; simpl; [by apply Hs | done | |];
    intros [? ?]; by rewrite IHe1, IHe2.
Qed.

Lemma holds_agree c s s' k :
  (forall v, var_below c v -> s' v = s v) ->
  constraint_below c k -> holds s k -> holds s' k.
Proof.
  intros Hs. destruct k; simpl; intros [Hl Hr];
    by rewrite (eval_expr_agree _ _ _ _ Hs Hl), (eval_expr_agree _ _ _ _ Hs Hr).
Qed.

Lemma sum_below c values acc :
  expr_below c acc -> Forall (var_below c) values ->
  expr_below c (fold_left (fun acc v => EAdd acc (EVar v)) values acc).
Proof.
  intros Hacc Hvs. revert acc Hacc.
  induction Hvs as [|v values Hv _ IH]; intros acc Hacc; simpl; [done|].
  apply IH. by split.
Qed.

Lemma gate_constraints_below op c values :
  Forall (var_below c) values ->
  Forall (constraint_below (S c)) (gate_constraints op (aux_ c) values).
Proof.
  intros Hvs.
  assert (Forall (var_below (S c)) values) as Hvs'.
  { eapply Forall_impl; [exact Hvs|]. intros v. apply var_below_le. lia. }
  assert (expr_below (S c) (sum values)) as Hsum.
  { unfold sum. by apply sum_below. }
  assert (var_below (S c) (aux_ c)) as Ha by (simpl; lia).
  destruct op; simpl.
  - apply Forall_app. split.
    + apply Forall_fmap. eapply Forall_impl; [exact Hvs'|]. by intros v Hv.
    + by repeat constructor.
  - apply Forall_app. split.
    + apply Forall_fmap. eapply Forall_impl; [exact Hvs'|]. by intros v Hv.
    + by repeat constructor.
  - destruct Hvs' as [|v rest Hv _]; [constructor|]. by repeat constructor.
Qed.

Lemma mapM_process_set_counter vs st values st1 :
  vars_ok st -> mapM process_set vs st = Return (values, st1) ->
  (aux_counter st <= aux_counter st1)%nat.
Proof.
  intros Hok H.
  assert (Forall (fun f => forall st v st',
    vars_ok st -> process_set f st = Return (v, st') ->
    aux_counter st' = (aux_counter st + length (gates_postorder f))%nat
    /\ v = root_variable (aux_counter st) f
    /\ exists cs,
         problem st' = problem (with_constraints st cs)
         /\ map constraint_head cs
            = concat (imap (fun i => gate_heads (aux_counter st + i))
                        (gates_postorder f))) vs) as Hl.
  { apply Forall_forall. intros g _. apply process_set_layout. }
  destruct (mapM_process_set_layout _ Hl _ _ _ Hok H) as [-> _]. lia.
Qed.

Lemma mapM_process_set_below vs :
  Forall (fun f => forall st v st',
    vars_ok st -> process_set f st = Return (v, st') ->
    var_below (aux_counter st') v
    /\ (Forall (constraint_below (aux_counter st)) (constraints (problem st)) ->
        Forall (constraint_below (aux_counter st')) (constraints (problem st')))) vs ->
  forall st values st1,
    vars_ok st -> mapM process_set vs st = Return (values, st1) ->
    Forall (var_below (aux_counter st1)) values
    /\ (Forall (constraint_below (aux_counter st)) (constraints (problem st)) ->
        Forall (constraint_below (aux_counter st1)) (constraints (problem st1))).
Proof.
  induction 1 as [|f vs Hf Hfs IH]; intros st values st1 Hok.
  - by intros [= <- <-].
  - rewrite mapM_cons.
    destruct (process_set f st) as [[v sta]|e] eqn:Ef; [|discriminate].
    destruct (mapM process_set vs sta) as [[vals stb]|e] eqn:Evs; [|discriminate].
    intros [= <- <-].
    destruct (Hf _ _ _ Hok Ef) as (Hv & Hca).
    destruct (process_set_sound f _ _ _ Hok Ef) as (Hoka & _ & _).
    destruct (IH _ _ _ Hoka Evs) as (Hvals & Hcb).
    pose proof (mapM_process_set_counter _ _ _ _ Hoka Evs) as Hle.
    split; [|by auto].
    constructor; [by eapply var_below_le | done].
Qed.

Lemma process_set_counter f st v st' :
  vars_ok st -> process_set f st = Return (v, st') ->
  (aux_counter st <= aux_counter st')%nat.
Proof.
  intros Hok H. destruct (process_set_layout f _ _ _ Hok H) as [-> _]. lia.
Qed.

(** The encoder only mentions variables it has allocated. *)
Lemma process_set_below f :
  forall st v st',
    vars_ok st -> process_set f st = Return (v, st') ->
    var_below (aux_counter st') v
    /\ (Forall (constraint_below (aux_counter st)) (constraints (problem st)) ->
        Forall (constraint_below (aux_counter st')) (constraints (problem st'))).
Proof.
  induction f as [name | op vs IH] using Formula_nested_ind;
    intros st v st' Hok H.
  - destruct (process_literal_inv _ _ _ _ Hok H) as (-> & _ & -> & ->).
    by split.
  - apply process_set_Gate_inv in H as (values & st1 & Hvs & Hne & -> & ->).
    destruct (mapM_process_set_below _ IH _ _ _ Hok Hvs) as (Hvals & Hc).
    split; [simpl; lia|].
    intros Hst. simpl. apply Forall_app. split.
    + eapply Forall_impl; [exact (Hc Hst)|].
      intros k. apply constraint_below_le. lia.
    + by apply gate_constraints_below.
Qed.

Lemma set_aux_binary s k b : binary s -> binary (set_aux s k (Z.b2z b)).
Proof.
  intros Hb [name|j]; simpl; [apply Hb|].
  destruct (j =? k)%nat; [destruct b; auto | apply Hb].
Qed.

Lemma set_aux_below s k z v : var_below k v -> set_aux s k z v = s v.
Proof.
  destruct v as [name|j]; simpl; [done|]. intros Hj.
  destruct (Nat.eqb_spec j k); [lia | done].
Qed.

Lemma set_aux_same s k z : set_aux s k z (aux_ k) = z.
Proof. simpl. by rewrite Nat.eqb_refl. Qed.

Lemma formula_value_ext_literals lit lit' f :
  (forall name, In name (literals f) -> lit name = lit' name) ->
  formula_value lit f = formula_value lit' f.
Proof.
  induction f as [name | op vs IH] using Formula_nested_ind; intros Hlit.
  - apply Hlit. by left.
  - assert (map (formula_value lit) vs = map (formula_value lit') vs) as Hmap.
    { apply map_ext_in. intros v Hv. rewrite Forall_forall in IH.
      apply IH; [by apply list_elem_of_In|].
      intros name Hname. apply Hlit. by eapply literals_operand. }
    destruct op; simpl.
    + by rewrite <- (forallb_id_map (formula_value lit)),
         <- (forallb_id_map (formula_value lit')), Hmap.
    + by rewrite <- (existsb_id_map (formula_value lit)),
         <- (existsb_id_map (formula_value lit')), Hmap.
    + destruct vs as [|v rest]; [done|]. by injection Hmap as -> _.
Qed.

Lemma formula_value_ext lit lit' f :
  (forall name, lit name = lit' name) ->
  formula_value lit f = formula_value lit' f.
Proof. intros Hlit. apply formula_value_ext_literals. auto. Qed.

Lemma bool_round_b2z b : bool_round (Z.b2z b) = b.
Proof. by destruct b. Qed.

Lemma process_set_sound_all vs :
  Forall (fun f => forall st v st',
    vars_ok st -> process_set f st = Return (v, st') ->
    vars_ok st' /\ grows st st' /\
    forall s, binary s -> Forall (holds s) (constraints (problem st')) ->
      bool_round (s v) = formula_value (literal_values s) f) vs.
Proof. apply Forall_forall. intros f _. apply process_set_sound. Qed.

Lemma process_set_below_all vs :
  Forall (fun f => forall st v st',
    vars_ok st -> process_set f st = Return (v, st') ->
    var_below (aux_counter st') v
    /\ (Forall (constraint_below (aux_counter st)) (constraints (problem st)) ->
        Forall (constraint_below (aux_counter st')) (constraints (problem st')))) vs.
Proof. apply Forall_forall. intros f _. apply process_set_below. Qed.

Lemma mapM_process_set_complete vs :
  Forall (fun f => forall st v st',
    vars_ok st -> process_set f st = Return (v, st') ->
    Forall (constraint_below (aux_counter st)) (constraints (problem st)) ->
    forall s, binary s -> Forall (holds s) (constraints (problem st)) ->
    exists s',
      binary s'
      /\ (forall w, var_below (aux_counter st) w -> s' w = s w)
      /\ Forall (holds s') (constraints (problem st'))) vs ->
  forall st values st1,
    vars_ok st -> mapM process_set vs st = Return (values, st1) ->
    Forall (constraint_below (aux_counter st)) (constraints (problem st)) ->
    forall s, binary s -> Forall (holds s) (constraints (problem st)) ->
    exists s',
      binary s'
      /\ (forall w, var_below (aux_counter st) w -> s' w = s w)
      /\ Forall (holds s') (constraints (problem st1)).
Proof.
  induction 1 as [|f vs Hf _ IH]; intros st values st1 Hok.
  - intros [= <- <-] _ s Hb Hc. by exists s.
  - rewrite mapM_cons.
    destruct (process_set f st) as [[v sta]|e] eqn:Ef; [|discriminate].
    destruct (mapM process_set vs sta) as [[vals stb]|e] eqn:Evs; [|discriminate].
    intros [= <- <-] Hbelow s Hb Hc.
    destruct (Hf _ _ _ Hok Ef Hbelow s Hb Hc) as (sa & Hba & Haa & Hca).
    destruct (process_set_sound f _ _ _ Hok Ef) as (Hoka & _ & _).
    destruct (process_set_below f _ _ _ Hok Ef) as (_ & Hbelowa).
    destruct (IH _ _ _ Hoka Evs (Hbelowa Hbelow) sa Hba Hca) as (sb & Hbb & Hab & Hcb).
    exists sb. split; [done|]. split; [|done].
    intros w Hw. rewrite Hab; [by apply Haa|].
    eapply var_below_le; [|exact Hw]. by eapply process_set_counter.
Qed.

(** Tseitin completeness: a 0/1 solution of the constraints emitted so far
    extends, without touching the variables already allocated, to a solution
    of the constraints after one more formula is encoded. *)
Lemma process_set_complete f :
  forall st v st',
    vars_ok st -> process_set f st = Return (v, st') ->
    Forall (constraint_below (aux_counter st)) (constraints (problem st)) ->
    forall s, binary s -> Forall (holds s) (constraints (problem st)) ->
    exists s',
      binary s'
      /\ (forall w, var_below (aux_counter st) w -> s' w = s w)
      /\ Forall (holds s') (constraints (problem st')).
Proof.
  induction f as [name | op vs IH] using Formula_nested_ind;
    intros st v st' Hok H Hbelow s Hb Hc.
  - destruct (process_literal_inv _ _ _ _ Hok H) as (_ & _ & Hp & _).
    exists s. rewrite Hp. done.
  - apply process_set_Gate_inv in H as (values & st1 & Hvs & Hne & -> & ->).
    destruct (mapM_process_set_complete _ IH _ _ _ Hok Hvs Hbelow s Hb Hc)
      as (s1 & Hb1 & Ha1 & Hc1).
    destruct (mapM_process_set_below _ (process_set_below_all vs) _ _ _ Hok Hvs)
      as (Hvals & Hbelow1).
    destruct (mapM_process_set_sound _ (process_set_sound_all vs) _ _ _ Hok Hvs)
      as (_ & _ & Hval1).
    pose proof (mapM_process_set_counter _ _ _ _ Hok Hvs) as Hle.
    set (c1 := aux_counter st1) in *.
    set (s2 := set_aux s1 c1
                 (Z.b2z (formula_value (literal_values s1) (Gate op vs)))).
    assert (forall w, var_below c1 w -> s2 w = s1 w) as Ha2.
    { intros w Hw. by apply set_aux_below. }
    assert (binary s2) as Hb2 by (by apply set_aux_binary).
    exists s2. split; [done|]. split.
    { intros w Hw. rewrite Ha2; [by apply Ha1|]. by eapply var_below_le. }
    simpl. apply Forall_app. split.
    + specialize (Hbelow1 Hbelow). rewrite Forall_forall in Hbelow1, Hc1.
      apply Forall_forall. intros k Hk.
      eapply holds_agree; [exact Ha2 | by apply Hbelow1 | by apply Hc1].
    + apply gate_complete; [done | done |].
      replace (map (fun v => bool_round (s2 v)) values)
        with (map (fun v => bool_round (s1 v)) values).
      * rewrite (Hval1 s1 Hb1 Hc1), formula_value_Gate.
        -- unfold s2. by rewrite set_aux_same, bool_round_b2z.
        -- intros -> ->. apply mapM_length in Hvs. apply Hne; [done|].
           by destruct values.
      * apply map_ext_in. intros w Hw. rewrite Ha2; [done|].
        rewrite Forall_forall in Hvals. apply Hvals. by apply list_elem_of_In.
Qed.

(** Every literal assignment is the literal part of a 0/1 solution of the
    returned constraints, and the root has the formula's value there. *)
Lemma sat_to_ilp_complete f p vars :
  sat_to_ilp f = Return (p, vars) ->
  forall lit,
    exists s,
      feasible p s
      /\ (forall name, literal_values s name = lit name)
      /\ objective_value p s = Z.b2z (formula_value lit f).
Proof.
  unfold sat_to_ilp.
  destruct (process_set f initial_session) as [[root st]|e] eqn:E; [|discriminate].
  intros [= <- <-] lit.
  assert (binary (literal_valuation lit)) as Hb0.
  { intros [name|k]; simpl; [destruct (lit name)|]; auto. }
  destruct (process_set_complete f _ _ _ vars_ok_initial E (Forall_nil_2 _)
              (literal_valuation lit) Hb0 (Forall_nil_2 _)) as (s & Hb & Ha & Hc).
  destruct (process_set_sound f _ _ _ vars_ok_initial E) as (_ & _ & Hval).
  assert (forall name, literal_values s name = lit name) as Hlit.
  { intros name. unfold literal_values. rewrite Ha; [|done]. simpl.
    apply bool_round_b2z. }
  exists s. split; [by split|]. split; [done|].
  unfold objective_value. simpl.
  rewrite (binary_bool_round s root Hb), (Hval s Hb Hc).
  f_equal. by apply formula_value_ext.
Qed.

(** ** The root variable: an objective, not a constraint *)

(** C1 (as the code has it): the problem returned by [sat_to_ilp] is a
    maximisation whose objective is the root variable; the constraints are
    the gate constraints alone and do not fix the root.  In every 0/1
    solution of them the root carries the formula's truth value at the
    solution's literal values, and every literal assignment is the literal
    part of such a solution: the root is 1 at the satisfying assignments and
    0 at the falsifying ones. *)
Theorem sat_to_ilp_root_is_objective f p vars :
  sat_to_ilp f = Return (p, vars) ->
  sense p = LpMaximize /\
  exists root,
    objective p = Some (EVar root)
    /\ (forall s, feasible p s ->
          bool_round (s root) = formula_value (literal_values s) f)
    /\ (forall lit, exists s,
          feasible p s
          /\ (forall name, literal_values s name = lit name)
          /\ s root = Z.b2z (formula_value lit f)).
Proof.
  intros H. pose proof (sat_to_ilp_complete f p vars H) as Hcomplete.
  unfold sat_to_ilp in H.
  destruct (process_set f initial_session) as [[root st]|e] eqn:E; [|discriminate].
  injection H as <- <-.
  destruct (process_set_sound f _ _ _ vars_ok_initial E) as (_ & [cs Hcs] & Hval).
  split.
  - simpl. by rewrite Hcs.
  - exists root. split; [reflexivity|]. split.
    + intros s [Hb Hc]. by apply Hval.
    + intros lit. destruct (Hcomplete lit) as (s & Hf & Hlit & Hobj). by exists s.
Qed.

Lemma sat_to_ilp_root_is_objective_witness :
  sat_to_ilp test_single_variable
  = Return (test_single_variable_problem, {["a" := x_ "a"]}) /\
  (sense test_single_variable_problem = LpMaximize /\
   exists root,
     objective test_single_variable_problem = Some (EVar root)
     /\ (forall s, feasible test_single_variable_problem s ->
           bool_round (s root)
           = formula_value (literal_values s) test_single_variable)
     /\ (forall lit, exists s,
           feasible test_single_variable_problem s
           /\ (forall name, literal_values s name = lit name)
           /\ s root = Z.b2z (formula_value lit test_single_variable))).
Proof.
  split; [reflexivity|].
  apply (sat_to_ilp_root_is_objective test_single_variable
           test_single_variable_problem {["a" := x_ "a"]}).
  reflexivity.
Defined.

(** C1 (as stated) fails: for [Set(OR, ["a"])] the returned constraints are
    satisfied by the all-zero valuation, at which the root variable is 0, and
    none of them is an equation. *)
Lemma root_not_constrained_to_one :
  exists p vars root (s : Valuation),
    sat_to_ilp test_single_variable = Return (p, vars)
    /\ objective p = Some (EVar root)
    /\ feasible p s
    /\ s root = 0
    /\ Forall (fun c => match c with LpEq _ _ => False | _ => True end)
         (constraints p).
Proof.
  eexists _, _, (aux_ 0), (fun _ => 0).
  split; [reflexivity|]. split; [reflexivity|]. split.
  - split; [by left|]. repeat constructor; simpl; lia.
  - split; [reflexivity|]. by repeat constructor.
Qed.

(** ** The constraints of one gate *)

(** C5: once the operands of a gate are encoded to [values], the gate gets
    the next auxiliary variable [a] and exactly these constraints are
    appended: for AND, [a <= v] for each operand and
    [a >= sum(values) - n + 1]; for OR, [a >= v] for each operand and
    [a <= sum(values)]; for NOT over one operand, [a == 1 - v].  In every 0/1
    valuation satisfying them, [a] is 1 exactly when all operands are 1
    (AND), some operand is 1 (OR), the operand is 0 (NOT). *)
Theorem gate_constraints_shape_and_meaning op vs st values st1 :
  mapM process_set vs st = Return (values, st1) ->
  match op with
  | NOT => length vs = 1%nat
  | AND | OR => (1 <= length vs)%nat
  end ->
  exists st2 emitted,
    process_set (Gate op vs) st = Return (aux_ (aux_counter st1), st2)
    /\ constraints (problem st2) = constraints (problem st1) ++ emitted
    /\ emitted =
       match op with
       | AND =>
           map (fun v => LpLe (EVar (aux_ (aux_counter st1))) (EVar v)) values
           ++ [LpGe (EVar (aux_ (aux_counter st1)))
                 (EAdd
                    (ESub (sum values) (EConst (Z.of_nat (length values))))
                    (EConst 1))]
       | OR =>
           map (fun v => LpGe (EVar (aux_ (aux_counter st1))) (EVar v)) values
           ++ [LpLe (EVar (aux_ (aux_counter st1))) (sum values)]
       | NOT =>
           map (fun v =>
                  LpEq (EVar (aux_ (aux_counter st1)))
                    (ESub (EConst 1) (EVar v))) values
       end
    /\ forall s, binary s -> Forall (holds s) emitted ->
         (s (aux_ (aux_counter st1)) = 1 <->
          match op with
          | AND => Forall (fun v => s v = 1) values
          | OR => Exists (fun v => s v = 1) values
          | NOT => Forall (fun v => s v = 0) values
          end).
Proof.
  intros Hvs Harity.
  pose proof (mapM_length _ _ _ _ _ Hvs) as Hlen.
  assert (op = NOT -> values <> []) as Hne.
  { intros -> ->. simpl in Hlen. lia. }
  exists (with_constraints (bump st1)
            (gate_constraints op (aux_ (aux_counter st1)) values)),
         (gate_constraints op (aux_ (aux_counter st1)) values).
  split.
  { rewrite process_set_Gate, Hvs, (emit_gate_Return _ _ _ _ Hne). reflexivity. }
  split; [reflexivity|]. split.
  { destruct op; try reflexivity.
    destruct values as [|v [|w rest]]; simpl in *; try reflexivity; lia. }
  intros s Hb Hc.
  assert (forall v, s v = 1 <-> bool_round (s v) = true) as Hone.
  { intros v. unfold bool_round. destruct (Hb v) as [-> | ->]; simpl; split; done. }
  assert (forall v, s v = 0 <-> bool_round (s v) = false) as Hzero.
  { intros v. unfold bool_round. destruct (Hb v) as [-> | ->]; simpl; split; done. }
  rewrite Hone. destruct op.
  - rewrite (and_meaning _ _ _ Hb Hc), forallb_forall, Forall_forall.
    split; intros H v Hin.
    + apply Hone, H. by apply list_elem_of_In.
    + apply Hone, H. by apply list_elem_of_In.
  - rewrite (or_meaning _ _ _ Hb Hc), existsb_exists, Exists_exists.
    split; intros (v & Hin & Hv); exists v.
    + split; [by apply list_elem_of_In | by apply Hone].
    + split; [by apply list_elem_of_In | by apply Hone].
  - destruct values as [|v [|w rest]]; simpl in Hlen; try lia.
    rewrite (not_meaning _ _ _ _ Hb Hc), Forall_singleton, Hzero.
    by destruct (bool_round (s v)).
Qed.

Lemma gate_constraints_shape_and_meaning_witness :
  mapM process_set [Literal "a"; Literal "b"] initial_session
  = Return ([x_ "a"; x_ "b"],
      mkSession (mkLpProblem LpMaximize None [])
        (<["b" := x_ "b"]> {["a" := x_ "a"]}) 0%nat)
  /\ exists st2 emitted,
    process_set test_and_operator initial_session = Return (aux_ 0%nat, st2)
    /\ constraints (problem st2) = [] ++ emitted
    /\ emitted =
       [LpLe (EVar (aux_ 0)) (EVar (x_ "a"));
        LpLe (EVar (aux_ 0)) (EVar (x_ "b"));
        LpGe (EVar (aux_ 0))
          (EAdd (ESub (sum [x_ "a"; x_ "b"]) (EConst 2)) (EConst 1))]
    /\ forall s, binary s -> Forall (holds s) emitted ->
         (s (aux_ 0%nat) = 1 <-> Forall (fun v => s v = 1) [x_ "a"; x_ "b"]).
Proof.
  split; [reflexivity|].
  apply (gate_constraints_shape_and_meaning AND
           [Literal "a"; Literal "b"] initial_session [x_ "a"; x_ "b"]
           (mkSession (mkLpProblem LpMaximize None [])
              (<["b" := x_ "b"]> {["a" := x_ "a"]}) 0%nat)).
  - reflexivity.
  - simpl. lia.
Defined.

(** ** NOT gates with more than one operand *)

(** C10: a NOT gate with operands [v :: w :: rest] is encoded without
    failure whenever its operands are: every operand is encoded (one variable
    per operand, the session after all of them), the gate gets the next
    auxiliary variable, and the one constraint appended is
    [aux == 1 - v1] on the first operand's variable.  The evaluator's
    all-literal NOT branch negates the first operand's value whatever the
    other operands are. *)
Theorem not_gate_uses_first_operand_only v w rest st values st1 :
  mapM process_set (v :: w :: rest) st = Return (values, st1) ->
  (exists v1 others st2,
     values = v1 :: others
     /\ length values = length (v :: w :: rest)
     /\ (exists st0, process_set v st = Return (v1, st0))
     /\ process_set (Gate NOT (v :: w :: rest)) st
        = Return (aux_ (aux_counter st1), st2)
     /\ constraints (problem st2)
        = constraints (problem st1)
          ++ [LpEq (EVar (aux_ (aux_counter st1))) (ESub (EConst 1) (EVar v1))])
  /\ forall name names input,
       forallb is_str names = true ->
       verify_sat (Gate NOT (Literal name :: names)) input
       = match input !! name with
         | Some b => Return (negb b)
         | None => Raise (KeyError name)
         end.
Proof.
  intros Hvs. split.
  - pose proof (mapM_length _ _ _ _ _ Hvs) as Hlen.
    destruct values as [|v1 others]; [discriminate|].
    exists v1, others,
      (with_constraints (bump st1)
         (gate_constraints NOT (aux_ (aux_counter st1)) (v1 :: others))).
    split; [reflexivity|]. split; [done|]. split.
    + rewrite mapM_cons in Hvs.
      destruct (process_set v st) as [[b st0]|e]; [|discriminate].
      destruct (mapM process_set (w :: rest) st0) as [[bs st']|e]; [|discriminate].
      injection Hvs as -> _ _. by exists st0.
    + split; [|reflexivity].
      rewrite process_set_Gate, Hvs, emit_gate_Return; [reflexivity | done].
  - intros name names input Hstr. simpl. rewrite Hstr.
    by destruct (input !! name).
Qed.

Lemma not_gate_uses_first_operand_only_witness :
  mapM process_set [Literal "a"; Literal "b"] initial_session
  = Return ([x_ "a"; x_ "b"],
      mkSession (mkLpProblem LpMaximize None [])
        (<["b" := x_ "b"]> {["a" := x_ "a"]}) 0%nat)
  /\ process_set (Gate NOT [Literal "a"; Literal "b"]) initial_session
     = Return (aux_ 0%nat,
         mkSession
           (mkLpProblem LpMaximize None
              [LpEq (EVar (aux_ 0)) (ESub (EConst 1) (EVar (x_ "a")))])
           (<["b" := x_ "b"]> {["a" := x_ "a"]}) 1%nat)
  /\ verify_sat (Gate NOT [Literal "a"; Literal "b"]) {["a" := false]}
     = Return true.
Proof.
  split; [reflexivity|].
  destruct (not_gate_uses_first_operand_only (Literal "a") (Literal "b") []
              initial_session [x_ "a"; x_ "b"]
              (mkSession (mkLpProblem LpMaximize None [])
                 (<["b" := x_ "b"]> {["a" := x_ "a"]}) 0%nat) eq_refl)
    as [_ Heval].
  split; [reflexivity|].
  exact (Heval "a" [Literal "b"] {["a" := false]} eq_refl).
Defined.

(** ** Malformed gates *)

Lemma mapM_process_set_outcome vs :
  Forall (fun f => forall st,
    if has_empty_not f then process_set f st = Raise IndexError
    else exists v st', process_set f st = Return (v, st')) vs ->
  forall st,
    if existsb has_empty_not vs then mapM process_set vs st = Raise IndexError
    else exists values st', mapM process_set vs st = Return (values, st').
Proof.
  induction 1 as [|f vs Hf _ IH]; intros st; simpl existsb.
  - by exists [], st.
  - rewrite mapM_cons. specialize (Hf st).
    destruct (has_empty_not f); simpl.
    + by rewrite Hf.
    + destruct Hf as (v & st1 & ->). specialize (IH st1).
      destruct (existsb has_empty_not vs).
      * by rewrite IH.
      * destruct IH as (values & st2 & ->). by exists (v :: values), st2.
Qed.

(** The encoder fails on exactly one kind of malformed node. *)
Lemma process_set_outcome f :
  forall st,
    if has_empty_not f then process_set f st = Raise IndexError
    else exists v st', process_set f st = Return (v, st').
Proof.
  induction f as [name | op vs IH] using Formula_nested_ind; intros st.
  - simpl. unfold process_literal. destruct (variables st !! name); eauto.
  - rewrite process_set_Gate.
    pose proof (mapM_process_set_outcome vs IH st) as Hvs.
    assert ((op = NOT /\ vs = []) \/ ~ (op = NOT /\ vs = [])) as [[-> ->] | Hn].
    { destruct op, vs; (by left) || (right; by intros [? ?]). }
    + reflexivity.
    + assert (has_empty_not (Gate op vs) = existsb has_empty_not vs) as ->.
      { destruct op, vs; try reflexivity. by destruct Hn. }
      destruct (existsb has_empty_not vs).
      * by rewrite Hvs.
      * destruct Hvs as (values & st1 & Hvs). rewrite Hvs.
        rewrite emit_gate_Return; [eauto|].
        intros -> ->. apply mapM_length in Hvs.
        destruct vs; [by apply Hn | discriminate].
Qed.

(** C6 (as the code has it): neither function validates arities and no
    arity error exists.  [sat_to_ilp] fails only on a formula that contains
    a NOT gate with no operand, and then with IndexError; every other
    formula is encoded, among them AND and OR gates with no operand (one
    constraint each: [aux >= 0 - 0 + 1], [aux <= 0]).  [verify_sat] returns
    True for an AND gate with no operand, False for such an OR gate, and
    raises IndexError for such a NOT gate. *)
Theorem no_arity_validation :
  (forall f,
     if has_empty_not f then sat_to_ilp f = Raise IndexError
     else exists p vars, sat_to_ilp f = Return (p, vars))
  /\ sat_to_ilp (Gate AND [])
     = Return
         (mkLpProblem LpMaximize (Some (EVar (aux_ 0)))
            [LpGe (EVar (aux_ 0))
               (EAdd (ESub (EConst 0) (EConst 0)) (EConst 1))], ∅)
  /\ sat_to_ilp (Gate OR [])
     = Return
         (mkLpProblem LpMaximize (Some (EVar (aux_ 0)))
            [LpLe (EVar (aux_ 0)) (EConst 0)], ∅)
  /\ forall input,
       verify_sat (Gate AND []) input = Return true
       /\ verify_sat (Gate OR []) input = Return false
       /\ verify_sat (Gate NOT []) input = Raise IndexError.
Proof.
  split; [|by repeat split].
  intros f. unfold sat_to_ilp.
  pose proof (process_set_outcome f initial_session) as H.
  destruct (has_empty_not f).
  - by rewrite H.
  - destruct H as (v & st' & ->). eauto.
Qed.

(** C6 (as stated) fails: an AND gate with no operand is encoded and
    evaluated without any error. *)
Lemma empty_and_is_accepted :
  exists p vars,
    sat_to_ilp (Gate AND []) = Return (p, vars)
    /\ constraints p <> []
    /\ verify_sat (Gate AND []) ∅ = Return true.
Proof. eexists _, _. split; [reflexivity|]. split; [discriminate | reflexivity]. Qed.

(** ** A bare literal as the whole formula *)

(** C8 (as the code has it): [sat_to_ilp] accepts a bare literal: its
    decision variable becomes the objective (the root), no constraint is
    emitted, and [variables] holds that one entry.  [verify_sat] is written
    for a [Set]: on a bare literal it raises AttributeError for every
    assignment. *)
Theorem bare_literal_entry_point name :
  sat_to_ilp (Literal name)
  = Return (mkLpProblem LpMaximize (Some (EVar (x_ name))) [],
            {[name := x_ name]})
  /\ forall input, verify_sat (Literal name) input = Raise AttributeError.
Proof. split; reflexivity. Qed.

(** C8 (as stated) fails: evaluating the bare literal ["a"] under
    [{"a": True}] raises instead of returning the literal's value. *)
Lemma bare_literal_not_evaluated :
  (<["a" := true]> ∅ : gmap string bool) !! "a" = Some true
  /\ verify_sat (Literal "a") (<["a" := true]> ∅) <> Return true.
Proof. split; [reflexivity | discriminate]. Qed.

(** ** Missing literals *)




Lemma comprehension_Raise {A B} (f : A -> Result B) l e :
  comprehension f l = Raise e -> exists a, In a l /\ f a = Raise e.
Proof.
  induction l as [|a l IH]; simpl; [discriminate|].
  destruct (f a) as [b|e'] eqn:E.
  - destruct (comprehension f l) as [bs|e'']; [discriminate|].
    intros [= ->]. destruct IH as (a' & ? & ?); eauto.
  - intros [= ->]. eauto.
Qed.








(** ** Gates that mix literal and gate operands *)

(** X8: whenever the operands of a gate are not all literals but one of
    them is, [verify_sat] raises: the recursion reaches a [str], which has no
    [values]. *)
Lemma verify_sat_mixed_operands_raise op vs input :
  forallb is_str vs = false ->
  existsb is_str vs = true ->
  exists e, verify_sat (Gate op vs) input = Raise e.
Proof.
  intros Hall Hsome. simpl verify_sat. rewrite Hall.
  assert (exists e, comprehension (fun v => verify_sat v input) vs = Raise e)
    as [e ->]; [|eauto].
  clear Hall. induction vs as [|v vs IH]; [discriminate|].
  simpl. destruct (verify_sat v input) as [b|e] eqn:E; [|eauto].
  destruct v as [name|op' vs']; [discriminate|].
  simpl in Hsome. destruct (IH Hsome) as [e ->]. eauto.
Qed.

(** C4 at the formula of [test_nested_and_or],
    [Set(OR, [Set(AND, ["a", "b"]), "c"])], with every literal True: the
    standard semantics gives True, [verify_sat] raises AttributeError. *)
Lemma verify_sat_mixed_operands_fail :
  validate test_nested_and_or = true
  /\ formula_value (fun _ => true) test_nested_and_or = true
  /\ verify_sat test_nested_and_or
       (<["a" := true]> (<["b" := true]> (<["c" := true]> ∅)))
     = Raise AttributeError.
Proof. repeat split. Qed.

(** ** Where the evaluator agrees with the boolean reading *)

Lemma getitem_present input name :
  is_Some (input !! name) ->
  getitem input (Literal name) = Return (assignment_values input name).
Proof. intros [b Hb]. unfold assignment_values. simpl. by rewrite Hb. Qed.

Lemma all_input_present input values :
  forallb is_str values = true ->
  (forall name, In (Literal name) values -> is_Some (input !! name)) ->
  all_input input values
  = Return (forallb (formula_value (assignment_values input)) values).
Proof.
  induction values as [|v values IH]; [done|].
  intros [Hv Hrest]%andb_prop Hin. destruct v as [name|]; [|discriminate].
  cbn [all_input forallb formula_value].
  rewrite getitem_present by (apply Hin; by left).
  destruct (assignment_values input name); [|done].
  apply IH; [done|]. intros n Hn. apply Hin. by right.
Qed.

Lemma any_input_present input values :
  forallb is_str values = true ->
  (forall name, In (Literal name) values -> is_Some (input !! name)) ->
  any_input input values
  = Return (existsb (formula_value (assignment_values input)) values).
Proof.
  induction values as [|v values IH]; [done|].
  intros [Hv Hrest]%andb_prop Hin. destruct v as [name|]; [|discriminate].
  cbn [any_input existsb formula_value].
  rewrite getitem_present by (apply Hin; by left).
  destruct (assignment_values input name); [done|].
  apply IH; [done|]. intros n Hn. apply Hin. by right.
Qed.

Lemma comprehension_map {A B} (f : A -> Result B) (g : A -> B) l :
  (forall a, In a l -> f a = Return (g a)) ->
  comprehension f l = Return (map g l).
Proof.
  induction l as [|a l IH]; intros Hf; simpl; [done|].
  rewrite (Hf a) by (by left). rewrite IH; [done|].
  intros a' Ha'. apply Hf. by right.
Qed.

Lemma has_empty_not_operand op vs v :
  has_empty_not (Gate op vs) = false -> In v vs -> has_empty_not v = false.
Proof.
  intros H Hv.
  assert (existsb has_empty_not vs = false) as Hex.
  { destruct op, vs; simpl in *; done. }
  destruct (has_empty_not v) eqn:E; [|done].
  assert (existsb has_empty_not vs = true); [|congruence].
  apply existsb_exists. eauto.
Qed.

Lemma validate_has_no_empty_not f : validate f = true -> has_empty_not f = false.
Proof.
  induction f as [name | op vs IH] using Formula_nested_ind; [done|].
  simpl validate. intros [Harity Hvs]%andb_prop.
  assert (existsb has_empty_not vs = false) as Hex.
  { destruct (existsb has_empty_not vs) eqn:E; [|done].
    apply existsb_exists in E as (v & Hin & Hv).
    rewrite Forall_forall in IH. rewrite forallb_forall in Hvs.
    rewrite (IH v (proj2 (list_elem_of_In _ _) Hin) (Hvs v Hin)) in Hv.
    discriminate. }
  destruct op, vs; simpl in *; done.
Qed.

(** On a gate whose operand lists are uniform and whose NOT gates have an
    operand, with a value for every literal, [verify_sat] returns the boolean
    reading of the formula. *)
Lemma verify_sat_uniform f input :
  is_str f = false ->
  uniform f = true ->
  has_empty_not f = false ->
  (forall name, In name (literals f) -> is_Some (input !! name)) ->
  verify_sat f input = Return (formula_value (assignment_values input) f).
Proof.
  induction f as [name | op vs IH] using Formula_nested_ind; [discriminate|].
  intros _ Hu Hne Hin. simpl uniform in Hu.
  apply andb_prop in Hu as [Hshape Hus].
  assert (forall name, In (Literal name) vs -> is_Some (input !! name)) as Hlits.
  { intros name Hname. apply Hin. eapply literals_operand; [exact Hname|]. by left. }
  simpl verify_sat. destruct (forallb is_str vs) eqn:Hstr.
  - destruct op; simpl.
    + by apply all_input_present.
    + by apply any_input_present.
    + destruct vs as [|v rest]; [discriminate|].
      destruct v as [name|]; [|discriminate].
      rewrite getitem_present by (apply Hlits; by left). reflexivity.
  - simpl in Hshape. apply negb_true_iff in Hshape.
    rewrite (comprehension_map _ (formula_value (assignment_values input))).
    + apply formula_value_Gate. intros -> ->. discriminate.
    + intros v Hv. rewrite Forall_forall in IH.
      apply IH.
      * by apply list_elem_of_In.
      * destruct (is_str v) eqn:E; [|done].
        assert (existsb is_str vs = true); [|congruence].
        apply existsb_exists. eauto.
      * rewrite forallb_forall in Hus. by apply Hus.
      * by eapply has_empty_not_operand.
      * intros name Hname. apply Hin. by eapply literals_operand.
Qed.

(** ** Where the reduction is sound *)

(** When the formula has a satisfying assignment, the maximum of the root
    is 1, and every assignment [solve_ilp] returns satisfies the formula. *)
Lemma solve_ilp_sound_when_satisfiable f lit a :
  formula_value lit f = true ->
  solve_ilp f (Return a) ->
  (forall name, In name (literals f) -> is_Some (a !! name))
  /\ formula_value (assignment_values a) f = true.
Proof.
  intros Hsat H. inversion H as [| | p vars s Hp Hdup Hs Hvars Ha | |]. subst.
  pose proof (sat_to_ilp_complete f p vars Hp lit) as (s1 & Hf1 & _ & Hobj1).
  assert (forall name, In name (literals f) -> vars !! name = Some (x_ name)) as Hv.
  { unfold sat_to_ilp in Hp.
    destruct (process_set f initial_session) as [[root st]|e] eqn:E; [|discriminate].
    injection Hp as <- <-. intros name Hname.
    rewrite (process_set_variables f _ _ _ E name). simpl.
    rewrite lookup_empty, bool_decide_eq_true_2; [done|].
    by apply list_elem_of_In. }
  assert (forall name, In name (literals f) ->
            assignment_values ((fun var => bool_round (s var)) <$> vars) name
            = literal_values s name) as Hread.
  { intros name Hname. unfold assignment_values.
    by rewrite lookup_fmap, (Hv name Hname). }
  split.
  { intros name Hname. rewrite lookup_fmap, (Hv name Hname). by eexists. }
  rewrite (formula_value_ext_literals _ (literal_values s) f Hread).
  inversion Hs as [s' Hf Hmax |]. subst.
  specialize (Hmax s1 Hf1). rewrite Hobj1, Hsat in Hmax.
  unfold sat_to_ilp in Hp.
  destruct (process_set f initial_session) as [[root st]|e] eqn:E; [|discriminate].
  injection Hp as <- <-.
  destruct (process_set_sound f _ _ _ vars_ok_initial E) as (_ & _ & Hval).
  destruct Hf as [Hb Hc]. rewrite <- (Hval s Hb Hc).
  unfold objective_value in Hmax. simpl in Hmax.
  unfold bool_round. destruct (Hb root) as [E0 | E1]; rewrite ?E0, ?E1 in *;
    [lia | reflexivity].
Qed.

(** X6: the reduction followed by the evaluator, on the formulas where both
    behave: a satisfiable formula with uniform operand lists and well-formed
    gates is solved to an assignment that [verify_sat] accepts. *)
Lemma solve_ilp_then_verify_sat f lit a :
  is_str f = false ->
  uniform f = true ->
  validate f = true ->
  formula_value lit f = true ->
  solve_ilp f (Return a) ->
  verify_sat f a = Return true.
Proof.
  intros Hgate Hu Hvalid Hsat Hsolve.
  destruct (solve_ilp_sound_when_satisfiable f lit a Hsat Hsolve) as [Hkeys Hval].
  rewrite verify_sat_uniform; try done.
  - by rewrite Hval.
  - by apply validate_has_no_empty_not.
Qed.

(** ** Unsatisfiable formulas *)

Lemma a_false_binary : binary a_false.
Proof. intros [name|[|k]]; simpl; auto. Qed.

Lemma sat_to_ilp_contradiction :
  sat_to_ilp contradiction = Return (contradiction_problem, {["a" := x_ "a"]}).
Proof. reflexivity. Qed.

Lemma sat_to_ilp_gate_contradiction :
  sat_to_ilp gate_contradiction
  = Return (gate_contradiction_problem, {["a" := x_ "a"]}).
Proof. reflexivity. Qed.

Lemma a_false_answer :
  (fun var => bool_round (a_false var)) <$> ({["a" := x_ "a"]} : gmap string LpVariable)
  = {["a" := false]}.
Proof. by rewrite map_fmap_singleton. Qed.

Lemma contradiction_a_false_optimal :
  solve contradiction_problem Optimal a_false.
Proof.
  constructor.
  - split; [apply a_false_binary|]. repeat constructor; simpl; lia.
  - intros s' [Hb Hc]. unfold objective_value. simpl.
    repeat (apply Forall_cons in Hc as [? Hc]). simpl in *.
    destruct (Hb (x_ "a")), (Hb (aux_ 0)), (Hb (aux_ 1)); lia.
Qed.

Lemma gate_contradiction_a_false_optimal :
  solve gate_contradiction_problem Optimal a_false.
Proof.
  constructor.
  - split; [apply a_false_binary|]. repeat constructor; simpl; lia.
  - intros s' [Hb Hc]. unfold objective_value. simpl.
    repeat (apply Forall_cons in Hc as [? Hc]). simpl in *.
    destruct (Hb (x_ "a")), (Hb (aux_ 0)), (Hb (aux_ 1)), (Hb (aux_ 2)); lia.
Qed.

(** The problem handed to the solver always has a solution, so the solver
    never reports infeasibility and [solve_ilp] never raises "No solution". *)
Lemma solve_ilp_never_no_solution f : ~ solve_ilp f (Raise NoSolution).
Proof.
  intros H. inversion H as [e He | | | | p vars status s Hp Hdup Hs Hst].
  - unfold sat_to_ilp in He.
    pose proof (process_set_outcome f initial_session) as Ho.
    destruct (has_empty_not f).
    + rewrite Ho in He. discriminate.
    + destruct Ho as (v & st' & Ho). rewrite Ho in He. discriminate.
  - destruct Hs as [s ? ? | s Hnone]; [done|].
    destruct (sat_to_ilp_complete f p vars Hp (fun _ => false)) as (s' & Hf & _).
    by eapply Hnone.
Qed.

(** C2 at [Set(AND, [Set(NOT, ["a"]), Set(OR, ["a"])])]: the formula is
    well formed, [solve_ilp] can return [{"a": False}] (the solver's status
    is Optimal at root 0), and [verify_sat] of the formula under that
    assignment is False. *)
Lemma solve_ilp_returns_falsifying_assignment :
  validate gate_contradiction = true
  /\ solve_ilp gate_contradiction (Return {["a" := false]})
  /\ verify_sat gate_contradiction {["a" := false]} = Return false.
Proof.
  split; [reflexivity|]. split; [|reflexivity].
  rewrite <- a_false_answer.
  eapply solve_ilp_optimal.
  - apply sat_to_ilp_gate_contradiction.
  - reflexivity.
  - apply gate_contradiction_a_false_optimal.
  - apply map_Forall_singleton, list_elem_of_In. simpl. auto.
Qed.

(** C3 at [Set(AND, ["a", Set(NOT, ["a"])])]: [solve_ilp] can return
    [{"a": False}], and whatever the solver answers it returns an assignment
    of ["a"]: it never raises "No solution", because the problem it hands to
    the solver has a solution. *)
Lemma solve_ilp_contradiction_not_detected :
  solve_ilp contradiction (Return {["a" := false]})
  /\ forall r, solve_ilp contradiction r -> exists b, r = Return {["a" := b]}.
Proof.
  split.
  - rewrite <- a_false_answer.
    eapply solve_ilp_optimal.
    + apply sat_to_ilp_contradiction.
    + reflexivity.
    + apply contradiction_a_false_optimal.
    + apply map_Forall_singleton, list_elem_of_In. simpl. auto.
  - intros r H.
    destruct H as [e He | p vars Hp Hdup | p vars s Hp Hdup Hs Hvars
                  | p vars s name var Hp Hdup Hs Hname Hvar
                  | p vars status s Hp Hdup Hs Hst].
    + rewrite sat_to_ilp_contradiction in He. discriminate.
    + rewrite sat_to_ilp_contradiction in Hp. injection Hp as <- <-.
      discriminate Hdup.
    + rewrite sat_to_ilp_contradiction in Hp. injection Hp as <- <-.
      exists (bool_round (s (x_ "a"))). by rewrite map_fmap_singleton.
    + rewrite sat_to_ilp_contradiction in Hp. injection Hp as <- <-.
      apply lookup_singleton_Some in Hname as [_ <-].
      destruct Hvar. apply list_elem_of_In. simpl. auto.
    + destruct (solve_ilp_never_no_solution contradiction).
      by eapply solve_ilp_no_solution.
Qed.

(** ** The optimum of the encoded problem *)

Lemma sat_to_ilp_inv f p vars :
  sat_to_ilp f = Return (p, vars) ->
  exists root st,
    process_set f initial_session = Return (root, st)
    /\ p = set_objective root (problem st)
    /\ vars = variables st.
Proof.
  unfold sat_to_ilp.
  destruct (process_set f initial_session) as [[root st]|e]; [|discriminate].
  intros [= <- <-]. by exists root, st.
Qed.

Lemma sat_to_ilp_objective_bounds f p vars s :
  sat_to_ilp f = Return (p, vars) -> binary s ->
  objective_value p s = 0 \/ objective_value p s = 1.
Proof.
  intros (root & st & _ & -> & _)%sat_to_ilp_inv Hb. apply (Hb root).
Qed.

Lemma sat_to_ilp_objective_value f p vars s :
  sat_to_ilp f = Return (p, vars) -> feasible p s ->
  objective_value p s = Z.b2z (formula_value (literal_values s) f).
Proof.
  intros (root & st & E & -> & _)%sat_to_ilp_inv [Hb Hc].
  destruct (process_set_sound f _ _ _ vars_ok_initial E) as (_ & _ & Hval).
  unfold objective_value. simpl.
  by rewrite (binary_bool_round s root Hb), (Hval s Hb Hc).
Qed.

(** X1: the reduction itself.  For the problem [sat_to_ilp] builds, the
    optimum a solver reports is 1 exactly when the formula has a satisfying
    assignment (and 0 otherwise). *)
Theorem optimum_is_one_iff_satisfiable f p vars s :
  sat_to_ilp f = Return (p, vars) ->
  solve p Optimal s ->
  (objective_value p s = 1 <-> exists lit, formula_value lit f = true)
  /\ (objective_value p s = 0 <-> forall lit, formula_value lit f = false).
Proof.
  intros Hp Hs. inversion Hs as [s' Hf Hmax |]. subst.
  pose proof (sat_to_ilp_objective_value f p vars s Hp Hf) as Hobj.
  assert (objective_value p s = 1 <-> exists lit, formula_value lit f = true) as H1.
  { split.
    - intros H. exists (literal_values s). rewrite Hobj in H.
      by destruct (formula_value (literal_values s) f).
    - intros [lit Hlit].
      destruct (sat_to_ilp_complete f p vars Hp lit) as (s1 & Hf1 & _ & Hobj1).
      specialize (Hmax s1 Hf1). rewrite Hobj1, Hlit in Hmax. simpl in Hmax.
      destruct (sat_to_ilp_objective_bounds f p vars s Hp (proj1 Hf)); lia. }
  split; [exact H1|]. split.
  - intros H0 lit. destruct (formula_value lit f) eqn:E; [|done].
    assert (objective_value p s = 1) by (apply H1; eauto). lia.
  - intros Hnone. rewrite Hobj, Hnone. reflexivity.
Qed.

Lemma test_single_variable_optimum :
  solve test_single_variable_problem Optimal (fun _ => 1).
Proof.
  constructor.
  - split; [by right|]. repeat constructor; simpl; lia.
  - intros s' [Hb _]. unfold objective_value. simpl. destruct (Hb (aux_ 0)); lia.
Qed.

Lemma optimum_is_one_iff_satisfiable_witness :
  sat_to_ilp test_single_variable
  = Return (test_single_variable_problem, {["a" := x_ "a"]})
  /\ solve test_single_variable_problem Optimal (fun _ => 1)
  /\ (objective_value test_single_variable_problem (fun _ => 1) = 1
      <-> exists lit, formula_value lit test_single_variable = true).
Proof.
  split; [reflexivity|]. split; [exact test_single_variable_optimum|].
  exact (proj1 (optimum_is_one_iff_satisfiable test_single_variable
                  test_single_variable_problem {["a" := x_ "a"]} (fun _ => 1)
                  eq_refl test_single_variable_optimum)).
Defined.

(** ** The solver always has an answer *)

Lemma assignments_cover names (lit : string -> bool) :
  exists lit', In lit' (assignments names)
               /\ forall n, In n names -> lit' n = lit n.
Proof.
  induction names as [|n names (lit0 & Hin & Hagree)]; simpl.
  - exists (fun _ => false). split; [by left | by intros n []].
  - exists (fun m => if String.eqb m n then lit n else lit0 m). split.
    + apply in_flat_map. exists lit0. split; [done|].
      destruct (lit n); simpl; auto.
    + intros m Hm. destruct (String.eqb_spec m n) as [-> | Hne]; [done|].
      destruct Hm as [-> | Hm]; [done | by apply Hagree].
Qed.

Lemma satisfiable_spec f :
  satisfiable f = true <-> exists lit, formula_value lit f = true.
Proof.
  unfold satisfiable. rewrite existsb_exists. split.
  - intros (lit & _ & H). eauto.
  - intros [lit H].
    destruct (assignments_cover (literals f) lit) as (lit' & Hin & Hagree).
    exists lit'. split; [done|].
    by rewrite (formula_value_ext_literals lit' lit f Hagree).
Qed.

(** Every problem the encoder builds has an optimal solution. *)
Lemma sat_to_ilp_has_optimum f p vars :
  sat_to_ilp f = Return (p, vars) -> exists s, solve p Optimal s.
Proof.
  intros Hp. destruct (satisfiable f) eqn:Hsat.
  - apply satisfiable_spec in Hsat as [lit Hlit].
    destruct (sat_to_ilp_complete f p vars Hp lit) as (s & Hf & _ & Hobj).
    exists s. constructor; [done|]. intros s' [Hb' _].
    rewrite Hobj, Hlit. simpl.
    destruct (sat_to_ilp_objective_bounds f p vars s' Hp Hb'); lia.
  - destruct (sat_to_ilp_complete f p vars Hp (fun _ => false)) as (s & Hf & _ & Hobj).
    exists s. constructor; [done|]. intros s' Hf'.
    rewrite (sat_to_ilp_objective_value f p vars s' Hp Hf').
    destruct (formula_value (literal_values s') f) eqn:E.
    + assert (satisfiable f = true) by (apply satisfiable_spec; eauto). congruence.
    + rewrite Hobj. destruct (formula_value _ f); simpl; lia.
Qed.

(** X2: [solve_ilp] has an outcome on every formula, of a kind the encoding
    fixes.  When the encoder raises, so does [solve_ilp].  Otherwise the
    problem it built has an optimal solution, and [solve_ilp] raises
    PulpSolverError if two variables of the problem have the same name,
    returns the rounded optimum if every decision variable occurs in the
    problem, and raises TypeError if one does not. *)
Theorem solve_ilp_has_outcome f :
  match sat_to_ilp f with
  | Raise e => solve_ilp f (Raise e)
  | Return (p, vars) =>
      exists s,
        solve p Optimal s
        /\ solve_ilp f
             (if duplicate_names (problem_variables p)
              then Raise PulpSolverError
              else if bool_decide
                        (map_Forall (fun _ var => var ∈ problem_variables p) vars)
                   then Return ((fun var => bool_round (s var)) <$> vars)
                   else Raise TypeError)
  end.
Proof.
  destruct (sat_to_ilp f) as [[p vars]|e] eqn:Hp.
  - destruct (sat_to_ilp_has_optimum f p vars Hp) as [s Hs].
    exists s. split; [done|].
    destruct (duplicate_names (problem_variables p)) eqn:Hdup.
    + by eapply solve_ilp_duplicate_names.
    + case_bool_decide as Hall.
      * by eapply solve_ilp_optimal.
      * apply map_not_Forall in Hall as (name & var & Hname & Hvar); [|apply _].
        by eapply solve_ilp_unvalued.
  - by apply solve_ilp_encoder_raises.
Qed.

(** ** What a returned assignment is worth *)

(** X5: an assignment returned by [solve_ilp] makes the formula true exactly
    when the formula is satisfiable: a satisfiable formula is always solved
    to a model, an unsatisfiable one is answered all the same. *)
Theorem solve_ilp_returns_model_iff_satisfiable f a :
  solve_ilp f (Return a) ->
  (formula_value (assignment_values a) f = true <-> satisfiable f = true).
Proof.
  intros Hsolve. rewrite satisfiable_spec. split.
  - intros H. by exists (assignment_values a).
  - intros [lit Hlit].
    by destruct (solve_ilp_sound_when_satisfiable f lit a Hlit Hsolve).
Qed.

Lemma solve_ilp_test_single_variable :
  solve_ilp test_single_variable (Return {["a" := true]}).
Proof.
  replace ({["a" := true]} : gmap string bool)
    with ((fun var => bool_round ((fun _ => 1) var))
            <$> ({["a" := x_ "a"]} : gmap string LpVariable))
    by (by rewrite map_fmap_singleton).
  eapply solve_ilp_optimal.
  - reflexivity.
  - reflexivity.
  - apply test_single_variable_optimum.
  - apply map_Forall_singleton, list_elem_of_In. simpl. auto.
Qed.

Lemma solve_ilp_returns_model_iff_satisfiable_witness :
  solve_ilp test_single_variable (Return {["a" := true]})
  /\ (formula_value (assignment_values {["a" := true]}) test_single_variable = true
      <-> satisfiable test_single_variable = true).
Proof.
  split; [exact solve_ilp_test_single_variable|].
  exact (solve_ilp_returns_model_iff_satisfiable test_single_variable
           {["a" := true]} solve_ilp_test_single_variable).
Defined.

Lemma solve_ilp_then_verify_sat_witness :
  is_str test_single_variable = false
  /\ uniform test_single_variable = true
  /\ validate test_single_variable = true
  /\ formula_value (fun _ => true) test_single_variable = true
  /\ solve_ilp test_single_variable (Return {["a" := true]})
  /\ verify_sat test_single_variable {["a" := true]} = Return true.
Proof.
  repeat (split; [reflexivity|]).
  split; [exact solve_ilp_test_single_variable|].
  exact (solve_ilp_then_verify_sat test_single_variable (fun _ => true)
           {["a" := true]} eq_refl eq_refl eq_refl eq_refl
           solve_ilp_test_single_variable).
Defined.

(** ** More on the evaluator *)

(** X7: on a well-formed gate whose operand lists are uniform, with a value
    for every literal it references, [verify_sat] returns the boolean value
    of the formula and raises nothing. *)
Theorem verify_sat_valid_uniform f input :
  is_str f = false ->
  uniform f = true ->
  validate f = true ->
  (forall name, In name (literals f) -> is_Some (input !! name)) ->
  verify_sat f input = Return (formula_value (assignment_values input) f).
Proof.
  intros Hgate Hu Hvalid Htotal.
  apply verify_sat_uniform; try assumption.
  by apply validate_has_no_empty_not.
Qed.

Lemma verify_sat_valid_uniform_witness :
  is_str gate_contradiction = false
  /\ uniform gate_contradiction = true
  /\ validate gate_contradiction = true
  /\ verify_sat gate_contradiction {["a" := true]}
     = Return (formula_value (assignment_values {["a" := true]}) gate_contradiction).
Proof.
  repeat (split; [reflexivity|]).
  apply (verify_sat_valid_uniform gate_contradiction {["a" := true]});
    try reflexivity.
  intros name Hname. simpl in Hname.
  destruct Hname as [<- | [<- | []]]; by eexists.
Defined.

Lemma verify_sat_mixed_operands_raise_witness :
  forallb is_str [Gate AND [Literal "a"; Literal "b"]; Literal "c"] = false
  /\ existsb is_str [Gate AND [Literal "a"; Literal "b"]; Literal "c"] = true
  /\ exists e, verify_sat test_nested_and_or ∅ = Raise e.
Proof.
  split; [reflexivity|]. split; [reflexivity|].
  exact (verify_sat_mixed_operands_raise OR
           [Gate AND [Literal "a"; Literal "b"]; Literal "c"] ∅ eq_refl eq_refl).
Defined.

(** X9: double negation.  Wrapping a gate in two NOT gates changes nothing:
    the result is the gate's own result, and an exception the gate raises is
    raised unchanged.  Around a literal, the two NOT gates give the literal's
    value (or KeyError), where the bare literal itself is not accepted. *)
Theorem verify_sat_double_negation g input :
  verify_sat (Gate NOT [Gate NOT [g]]) input
  = if is_str g then getitem input g else verify_sat g input.
Proof.
  destruct g as [name | op vs].
  - simpl. destruct (input !! name) as [b|]; [|reflexivity].
    simpl. by rewrite negb_involutive.
  - change (verify_sat (Gate NOT [Gate NOT [Gate op vs]]) input)
      with (match
              match verify_sat (Gate NOT [Gate op vs]) input with
              | Return b => Return [b]
              | Raise e => Raise e
              end
            with
            | Return booleans => use_operator_on_booleans NOT booleans
            | Raise e => Raise e
            end).
    change (verify_sat (Gate NOT [Gate op vs]) input)
      with (match
              match verify_sat (Gate op vs) input with
              | Return b => Return [b]
              | Raise e => Raise e
              end
            with
            | Return booleans => use_operator_on_booleans NOT booleans
            | Raise e => Raise e
            end).
    simpl is_str. cbn iota.
    destruct (verify_sat (Gate op vs) input) as [b|e]; [|reflexivity].
    simpl. by rewrite negb_involutive.
Qed.

Lemma getitem_not_other input v e :
  getitem input v = Raise e -> is_str v = true -> exists k, e = KeyError k.
Proof.
  destruct v as [name|]; [|discriminate]. simpl.
  destruct (input !! name); [discriminate|]. intros [= <-] _. eauto.
Qed.

Lemma all_input_Raise input values e :
  forallb is_str values = true ->
  all_input input values = Raise e -> exists k, e = KeyError k.
Proof.
  induction values as [|v values IH]; simpl; [discriminate|].
  intros [Hv Hrest]%andb_prop.
  destruct (getitem input v) as [[|]|e'] eqn:E; [by apply IH | discriminate |].
  intros [= <-]. by eapply getitem_not_other.
Qed.

Lemma any_input_Raise input values e :
  forallb is_str values = true ->
  any_input input values = Raise e -> exists k, e = KeyError k.
Proof.
  induction values as [|v values IH]; simpl; [discriminate|].
  intros [Hv Hrest]%andb_prop.
  destruct (getitem input v) as [[|]|e'] eqn:E; [discriminate | by apply IH |].
  intros [= <-]. by eapply getitem_not_other.
Qed.

Lemma comprehension_length {A B} (f : A -> Result B) l bs :
  comprehension f l = Return bs -> length bs = length l.
Proof.
  revert bs. induction l as [|a l IH]; intros bs; simpl.
  - by intros [= <-].
  - destruct (f a) as [b|]; [|discriminate].
    destruct (comprehension f l) as [bs'|]; [|discriminate].
    intros [= <-]. simpl. f_equal. by apply IH.
Qed.

(** X10: the exceptions of [verify_sat].  IndexError comes only from a NOT
    gate without operands; AttributeError only from a bare literal or from a
    gate that mixes literal and gate operands; TypeError (a gate used as a
    dictionary key) and "No solution" are never raised. *)
Theorem verify_sat_exceptions f input e :
  verify_sat f input = Raise e ->
  match e with
  | KeyError _ => True
  | IndexError => has_empty_not f = true
  | AttributeError => is_str f = true \/ uniform f = false
  | TypeError | NoSolution | PulpSolverError => False
  end.
Proof.
  revert e. induction f as [name | op vs IH] using Formula_nested_ind; intros e.
  - simpl. intros [= <-]. by left.
  - simpl verify_sat. destruct (forallb is_str vs) eqn:Hstr.
    + intros H.
      assert (e = IndexError /\ op = NOT /\ vs = [] \/ exists k, e = KeyError k)
        as [(-> & -> & ->) | [k ->]]; [|reflexivity|done].
      destruct op; simpl in H.
      * right. by eapply all_input_Raise.
      * right. by eapply any_input_Raise.
      * destruct vs as [|v rest]; [injection H as <-; by left|]. right.
        simpl in Hstr. apply andb_prop in Hstr as [Hv _].
        destruct (getitem input v) as [b|e'] eqn:E; [discriminate|].
        injection H as <-. by eapply getitem_not_other.
    + destruct (comprehension _ vs) as [bs|e'] eqn:E.
      * intros H. apply comprehension_length in E.
        destruct op; simpl in H; try discriminate.
        destruct bs; [|discriminate]. destruct vs; discriminate.
      * intros [= ->]. apply comprehension_Raise in E as (v & Hin & Hv).
        rewrite Forall_forall in IH.
        specialize (IH v (proj2 (list_elem_of_In _ _) Hin) e Hv).
        destruct e; try done.
        -- assert (existsb has_empty_not vs = true) as Hex.
           { apply existsb_exists. eauto. }
           simpl. destruct op, vs; try done.
        -- right. simpl. destruct IH as [Hlit | Hnu].
           ++ assert (existsb is_str vs = true) as Hex.
              { apply existsb_exists. eauto. }
              by rewrite Hstr, Hex.
           ++ assert (forallb uniform vs = false) as Hall.
              { destruct (forallb uniform vs) eqn:Hall; [|done].
                rewrite forallb_forall in Hall. rewrite (Hall v Hin) in Hnu.
                discriminate. }
              rewrite Hall. apply andb_false_r.
Qed.

Lemma verify_sat_exceptions_witness :
  verify_sat (Gate AND [Gate NOT []; Gate OR [Literal "a"]]) ∅ = Raise IndexError
  /\ has_empty_not (Gate AND [Gate NOT []; Gate OR [Literal "a"]]) = true.
Proof.
  split; [reflexivity|].
  exact (verify_sat_exceptions (Gate AND [Gate NOT []; Gate OR [Literal "a"]]) ∅
           IndexError eq_refl).
Defined.

Lemma getitem_weaken (input input' : gmap string bool) v b :
  input ⊆ input' -> getitem input v = Return b -> getitem input' v = Return b.
Proof.
  intros Hsub. destruct v as [name|]; [|discriminate]. simpl.
  destruct (input !! name) as [b'|] eqn:E; [|discriminate].
  intros [= <-]. by rewrite (lookup_weaken _ _ _ _ E Hsub).
Qed.

Lemma all_input_weaken (input input' : gmap string bool) values b :
  input ⊆ input' ->
  all_input input values = Return b -> all_input input' values = Return b.
Proof.
  intros Hsub. induction values as [|v values IH]; simpl; [done|].
  destruct (getitem input v) as [bv|] eqn:E; [|discriminate].
  rewrite (getitem_weaken _ _ _ _ Hsub E). by destruct bv.
Qed.

Lemma any_input_weaken (input input' : gmap string bool) values b :
  input ⊆ input' ->
  any_input input values = Return b -> any_input input' values = Return b.
Proof.
  intros Hsub. induction values as [|v values IH]; simpl; [done|].
  destruct (getitem input v) as [bv|] eqn:E; [|discriminate].
  rewrite (getitem_weaken _ _ _ _ Hsub E). by destruct bv.
Qed.

Lemma comprehension_weaken {A B} (f g : A -> Result B) l bs :
  Forall (fun a => forall b, f a = Return b -> g a = Return b) l ->
  comprehension f l = Return bs -> comprehension g l = Return bs.
Proof.
  intros Hl. revert bs. induction Hl as [|a l Ha _ IH]; intros bs; simpl; [done|].
  destruct (f a) as [b|] eqn:E; [|discriminate]. rewrite (Ha b eq_refl).
  destruct (comprehension f l) as [bs'|]; [|discriminate].
  intros [= <-]. by rewrite (IH bs' eq_refl).
Qed.

(** X11: values for further literals do not change a result.  When
    [verify_sat] returns a boolean under an assignment, it returns the same
    boolean under every assignment that extends it. *)
Theorem verify_sat_weaken f (input input' : gmap string bool) b :
  input ⊆ input' ->
  verify_sat f input = Return b ->
  verify_sat f input' = Return b.
Proof.
  intros Hsub. revert b.
  induction f as [name | op vs IH] using Formula_nested_ind; intros b.
  - discriminate.
  - simpl verify_sat. destruct (forallb is_str vs).
    + destruct op; simpl.
      * by apply all_input_weaken.
      * by apply any_input_weaken.
      * destruct vs as [|v rest]; [discriminate|].
        destruct (getitem input v) as [bv|] eqn:E; [|discriminate].
        by rewrite (getitem_weaken _ _ _ _ Hsub E).
    + destruct (comprehension (fun v => verify_sat v input) vs) as [bs|] eqn:E;
        [|discriminate].
      by rewrite (comprehension_weaken _ (fun v => verify_sat v input') _ _ IH E).
Qed.

Lemma verify_sat_weaken_witness :
  ({["a" := false]} : gmap string bool) ⊆ <["b" := true]> {["a" := false]}
  /\ verify_sat test_and_operator {["a" := false]} = Return false
  /\ verify_sat test_and_operator (<["b" := true]> {["a" := false]}) = Return false.
Proof.
  assert (({["a" := false]} : gmap string bool) ⊆ <["b" := true]> {["a" := false]})
    as Hsub by (by apply insert_subseteq).
  split; [exact Hsub|]. split; [reflexivity|].
  exact (verify_sat_weaken test_and_operator {["a" := false]}
           (<["b" := true]> {["a" := false]}) false Hsub eq_refl).
Defined.

(** X12: the two helper paths agree.  On a gate whose operands are all
    literals that have a value, [use_operator_on_values], which looks the
    literals up lazily, gives what [use_operator_on_booleans] gives on the
    list of their values, the IndexError of an operand-less NOT gate
    included. *)
Theorem use_operator_paths_agree op vs input :
  forallb is_str vs = true ->
  (forall name, In (Literal name) vs -> is_Some (input !! name)) ->
  use_operator_on_values (Gate op vs) input
  = use_operator_on_booleans op (map (formula_value (assignment_values input)) vs).
Proof.
  intros Hstr Hpresent. destruct op; simpl.
  - by rewrite forallb_id_map, all_input_present.
  - by rewrite existsb_id_map, any_input_present.
  - destruct vs as [|v rest]; [reflexivity|].
    destruct v as [name|]; [|discriminate].
    rewrite getitem_present by (apply Hpresent; by left). reflexivity.
Qed.

Lemma use_operator_paths_agree_witness :
  forallb is_str [Literal "a"; Literal "b"] = true
  /\ use_operator_on_values (Gate AND [Literal "a"; Literal "b"])
       (<["b" := false]> {["a" := true]})
     = use_operator_on_booleans AND
         (map (formula_value
                 (assignment_values (<["b" := false]> {["a" := true]})))
            [Literal "a"; Literal "b"]).
Proof.
  split; [reflexivity|].
  apply (use_operator_paths_agree AND [Literal "a"; Literal "b"]
           (<["b" := false]> {["a" := true]}) eq_refl).
  intros name [[= <-] | [[= <-] | []]]; by eexists.
Defined.

(** X13: where the all-literal branch stops reading.  An AND gate over
    literals returns False at its first False literal and an OR gate returns
    True at its first True literal, whatever follows: the later literals are
    not looked up, so they may be missing from the assignment. *)
Theorem verify_sat_stops_at_deciding_literal op pre name rest input :
  op <> NOT ->
  forallb is_str pre = true ->
  forallb is_str rest = true ->
  Forall (fun v => getitem input v
                   = Return (match op with AND => true | _ => false end)) pre ->
  input !! name = Some (match op with AND => false | _ => true end) ->
  verify_sat (Gate op (pre ++ Literal name :: rest)) input
  = Return (match op with AND => false | _ => true end).
Proof.
  intros Hop Hpre Hrest Hscan Hname. simpl verify_sat.
  rewrite forallb_app. simpl forallb. rewrite Hpre, Hrest. simpl.
  destruct op; [| |done].
  - induction Hscan as [|v pre Hv _ IH]; simpl.
    + by rewrite Hname.
    + simpl in Hpre. apply andb_prop in Hpre as [_ Hpre]. rewrite Hv. by apply IH.
  - induction Hscan as [|v pre Hv _ IH]; simpl.
    + by rewrite Hname.
    + simpl in Hpre. apply andb_prop in Hpre as [_ Hpre]. rewrite Hv. by apply IH.
Qed.

Lemma verify_sat_stops_at_deciding_literal_witness :
  (<["b" := false]> {["a" := true]} : gmap string bool) !! "c" = None
  /\ verify_sat (Gate AND [Literal "a"; Literal "b"; Literal "c"])
       (<["b" := false]> {["a" := true]})
     = Return false.
Proof.
  split; [reflexivity|].
  apply (verify_sat_stops_at_deciding_literal AND [Literal "a"] "b" [Literal "c"]
           (<["b" := false]> {["a" := true]})).
  - discriminate.
  - reflexivity.
  - reflexivity.
  - constructor; [reflexivity | constructor].
  - reflexivity.
Defined.

(** ** The problem mentions declared variables only *)

Lemma declared_mono st st' v :
  (forall name w, variables st !! name = Some w -> variables st' !! name = Some w) ->
  (aux_counter st <= aux_counter st')%nat ->
  declared st v -> declared st' v.
Proof.
  intros Hvars Hle. destruct v as [name|k]; simpl; [apply Hvars | lia].
Qed.

Lemma process_set_keeps_variables f st v st' name w :
  process_set f st = Return (v, st') ->
  variables st !! name = Some w -> variables st' !! name = Some w.
Proof.
  intros H Hw. by rewrite (process_set_variables f _ _ _ H name), Hw.
Qed.

Lemma mapM_process_set_keeps_variables vs st values st1 name w :
  mapM process_set vs st = Return (values, st1) ->
  variables st !! name = Some w -> variables st1 !! name = Some w.
Proof.
  intros H Hw.
  assert (Forall (fun f => forall st v st',
    process_set f st = Return (v, st') ->
    forall name,
      variables st' !! name =
      match variables st !! name with
      | Some w => Some w
      | None => if bool_decide (name ∈ literals f) then Some (x_ name) else None
      end) vs) as Hall.
  { apply Forall_forall. intros f _. apply process_set_variables. }
  by rewrite (mapM_process_set_variables _ Hall _ _ _ H name), Hw.
Qed.

Lemma sum_variables values acc v :
  In v (expr_variables (fold_left (fun acc v => EAdd acc (EVar v)) values acc)) ->
  In v (expr_variables acc) \/ In v values.
Proof.
  revert acc. induction values as [|w values IH]; intros acc; simpl; [auto|].
  intros [Hin | Hin]%IH; [|auto].
  simpl in Hin. apply in_app_or in Hin as [Hin | [-> | []]]; auto.
Qed.

Lemma gate_constraints_variables op a values v :
  In v (flat_map constraint_variables (gate_constraints op a values)) ->
  v = a \/ In v values.
Proof.
  assert (In v (expr_variables (sum values)) -> In v values) as Hsum.
  { intros [[] | Hin]%sum_variables. done. }
  destruct op; simpl.
  - rewrite flat_map_app. intros [Hin | Hin]%in_app_or.
    + apply in_flat_map in Hin as (c & Hc & Hv).
      apply in_map_iff in Hc as (w & <- & Hw). simpl in Hv.
      destruct Hv as [<- | [<- | []]]; auto.
    + simpl in Hin. rewrite !app_nil_r in Hin.
      destruct Hin as [<- | Hin]; [auto|]. right. by apply Hsum.
  - rewrite flat_map_app. intros [Hin | Hin]%in_app_or.
    + apply in_flat_map in Hin as (c & Hc & Hv).
      apply in_map_iff in Hc as (w & <- & Hw). simpl in Hv.
      destruct Hv as [<- | [<- | []]]; auto.
    + simpl in Hin. rewrite app_nil_r in Hin.
      destruct Hin as [<- | Hin]; [auto|]. right. by apply Hsum.
  - destruct values as [|w rest]; [by intros []|]. simpl.
    intros [<- | [<- | []]]; auto.
Qed.

Lemma mapM_process_set_declared vs :
  Forall (fun f => forall st v st',
    vars_ok st -> process_set f st = Return (v, st') ->
    declared st' v /\ (all_declared st -> all_declared st')) vs ->
  forall st values st1,
    vars_ok st -> mapM process_set vs st = Return (values, st1) ->
    Forall (declared st1) values /\ (all_declared st -> all_declared st1).
Proof.
  induction 1 as [|f vs Hf _ IH]; intros st values st1 Hok.
  - by intros [= <- <-].
  - rewrite mapM_cons.
    destruct (process_set f st) as [[v sta]|e] eqn:Ef; [|discriminate].
    destruct (mapM process_set vs sta) as [[vals stb]|e] eqn:Evs; [|discriminate].
    intros [= <- <-].
    destruct (Hf _ _ _ Hok Ef) as (Hv & Ha).
    destruct (process_set_sound f _ _ _ Hok Ef) as (Hoka & _ & _).
    destruct (IH _ _ _ Hoka Evs) as (Hvals & Hb).
    split; [|auto]. constructor; [|done].
    eapply declared_mono; [| |exact Hv].
    + intros name w. by apply mapM_process_set_keeps_variables with (1 := Evs).
    + by eapply mapM_process_set_counter.
Qed.

Lemma process_set_declared f :
  forall st v st',
    vars_ok st -> process_set f st = Return (v, st') ->
    declared st' v /\ (all_declared st -> all_declared st').
Proof.
  induction f as [name | op vs IH] using Formula_nested_ind;
    intros st v st' Hok H.
  - pose proof (process_set_counter _ _ _ _ Hok H) as Hle.
    destruct (process_literal_inv _ _ _ _ Hok H) as (-> & _ & Hp & _).
    split.
    + simpl. simpl in H. unfold process_literal in H.
      destruct (variables st !! name) as [w|] eqn:E.
      * injection H as _ <-. by rewrite E, (Hok _ _ E).
      * injection H as <-. simpl. by rewrite lookup_insert_eq.
    + intros Hall v Hv. rewrite Hp in Hv.
      eapply declared_mono; [| exact Hle | by apply Hall].
      intros n w. by apply process_set_keeps_variables with (1 := H).
  - apply process_set_Gate_inv in H as (values & st1 & Hvs & Hne & -> & ->).
    destruct (mapM_process_set_declared _ IH _ _ _ Hok Hvs) as (Hvals & Ha).
    split; [simpl; lia|].
    intros Hall v. simpl constraints. rewrite flat_map_app.
    assert (forall w, declared st1 w ->
              declared (with_constraints (bump st1)
                          (gate_constraints op (aux_ (aux_counter st1)) values)) w)
      as Hup.
    { intros w. apply declared_mono; [done | simpl; lia]. }
    intros [Hin | Hin]%in_app_or.
    + by apply Hup, Ha.
    + apply gate_constraints_variables in Hin as [-> | Hin]; [simpl; lia|].
      apply Hup. rewrite Forall_forall in Hvals. apply Hvals.
      by apply list_elem_of_In.
Qed.

(** X14: the encoder never mentions a variable it has not declared.  Every
    variable that occurs in the returned problem is the decision variable of
    a literal of the formula or an auxiliary variable [aux_k] with [k] below
    the number of gate occurrences. *)
Theorem sat_to_ilp_mentions_declared_only f p vars v :
  sat_to_ilp f = Return (p, vars) ->
  v ∈ problem_variables p ->
  match v with
  | x_ name => In name (literals f) /\ vars !! name = Some v
  | aux_ k => (k < length (gates_postorder f))%nat
  end.
Proof.
  intros (root & st & E & -> & ->)%sat_to_ilp_inv Hv.
  apply list_elem_of_In in Hv.
  destruct (process_set_declared f _ _ _ vars_ok_initial E) as (Hroot & Hall).
  destruct (process_set_layout f _ _ _ vars_ok_initial E) as (Hc & _).
  assert (declared st v) as Hd.
  { unfold problem_variables in Hv. simpl in Hv.
    destruct Hv as [<- | Hv]; [done|]. apply Hall; [|done]. by intros w []. }
  destruct v as [name|k]; simpl in Hd.
  - split; [|done].
    rewrite (process_set_variables f _ _ _ E name) in Hd. simpl in Hd.
    rewrite lookup_empty in Hd. case_bool_decide as Hname; [|discriminate].
    by apply list_elem_of_In.
  - rewrite Hc in Hd. simpl in Hd. lia.
Qed.

Lemma sat_to_ilp_mentions_declared_only_witness :
  sat_to_ilp contradiction = Return (contradiction_problem, {["a" := x_ "a"]})
  /\ aux_ 1%nat ∈ problem_variables contradiction_problem
  /\ (1 < length (gates_postorder contradiction))%nat.
Proof.
  assert (aux_ 1%nat ∈ problem_variables contradiction_problem) as Hin.
  { apply list_elem_of_In. simpl. auto. }
  split; [reflexivity|]. split; [exact Hin|].
  exact (sat_to_ilp_mentions_declared_only contradiction contradiction_problem
           {["a" := x_ "a"]} (aux_ 1%nat) eq_refl Hin).
Defined.

(** ** Which variables the solver gives a value *)

Lemma grows_mentions st st' v :
  grows st st' ->
  In v (flat_map constraint_variables (constraints (problem st))) ->
  In v (flat_map constraint_variables (constraints (problem st'))).
Proof.
  intros [cs ->] Hin. simpl. rewrite flat_map_app. apply in_or_app. by left.
Qed.

Lemma gate_constraints_mention op a values v :
  match op with NOT => length values = 1%nat | AND | OR => True end ->
  In v values ->
  In v (flat_map constraint_variables (gate_constraints op a values)).
Proof.
  intros Harity Hv. destruct op; simpl.
  - rewrite flat_map_app. apply in_or_app. left.
    apply in_flat_map. exists (LpLe (EVar a) (EVar v)). split.
    + apply in_map_iff. eauto.
    + simpl. auto.
  - rewrite flat_map_app. apply in_or_app. left.
    apply in_flat_map. exists (LpGe (EVar a) (EVar v)). split.
    + apply in_map_iff. eauto.
    + simpl. auto.
  - destruct values as [|w [|? ?]]; try discriminate.
    destruct Hv as [-> | []]. simpl. auto.
Qed.

Lemma mapM_process_set_mentions vs :
  Forall (fun f => forall st v st',
    vars_ok st -> validate f = true -> process_set f st = Return (v, st') ->
    forall name, In name (literals f) ->
      if is_str f then v = x_ name
      else In (x_ name) (flat_map constraint_variables (constraints (problem st')))) vs ->
  forall st values st1,
    vars_ok st -> forallb validate vs = true ->
    mapM process_set vs st = Return (values, st1) ->
    forall name, In name (flat_map literals vs) ->
      In (x_ name) values
      \/ In (x_ name) (flat_map constraint_variables (constraints (problem st1))).
Proof.
  induction 1 as [|f vs Hf _ IH]; intros st values st1 Hok Hvalid.
  - by intros _ name [].
  - rewrite mapM_cons. simpl in Hvalid. apply andb_prop in Hvalid as [Hvf Hvvs].
    destruct (process_set f st) as [[v sta]|e] eqn:Ef; [|discriminate].
    destruct (mapM process_set vs sta) as [[vals stb]|e] eqn:Evs; [|discriminate].
    intros [= <- <-] name Hname. simpl in Hname. apply in_app_or in Hname.
    destruct (process_set_sound f _ _ _ Hok Ef) as (Hoka & _ & _).
    destruct (mapM_process_set_sound _ (process_set_sound_all vs) _ _ _ Hoka Evs)
      as (_ & Hgrows & _).
    destruct Hname as [Hname | Hname].
    + specialize (Hf _ _ _ Hok Hvf Ef name Hname). destruct (is_str f).
      * left. left. done.
      * right. by eapply grows_mentions.
    + destruct (IH _ _ _ Hoka Hvvs Evs name Hname) as [Hin | Hin].
      * left. by right.
      * by right.
Qed.

Lemma process_set_mentions f :
  forall st v st',
    vars_ok st -> validate f = true -> process_set f st = Return (v, st') ->
    forall name, In name (literals f) ->
      if is_str f then v = x_ name
      else In (x_ name) (flat_map constraint_variables (constraints (problem st'))).
Proof.
  induction f as [n | op vs IH] using Formula_nested_ind;
    intros st v st' Hok Hvalid H name Hname.
  - destruct (process_literal_inv _ _ _ _ Hok H) as (-> & _).
    simpl in Hname. by destruct Hname as [-> | []].
  - simpl validate in Hvalid. apply andb_prop in Hvalid as [Harity Hvvs].
    apply process_set_Gate_inv in H as (values & st1 & Hvs & Hne & -> & ->).
    pose proof (mapM_length _ _ _ _ _ Hvs) as Hlen.
    simpl is_str. cbn iota. simpl constraints. rewrite flat_map_app.
    apply in_or_app.
    destruct (mapM_process_set_mentions _ IH _ _ _ Hok Hvvs Hvs name Hname)
      as [Hin | Hin]; [right | by left].
    apply gate_constraints_mention; [|done].
    destruct op; [done | done |]. rewrite Hlen. by apply Nat.eqb_eq.
Qed.

(** For a well-formed formula every decision variable is part of the
    problem. *)
Lemma sat_to_ilp_valid_all_valued f p vars :
  validate f = true ->
  sat_to_ilp f = Return (p, vars) ->
  map_Forall (fun _ var => var ∈ problem_variables p) vars.
Proof.
  intros Hvalid (root & st & E & -> & ->)%sat_to_ilp_inv name var Hvar.
  rewrite (process_set_variables f _ _ _ E name) in Hvar. simpl in Hvar.
  rewrite lookup_empty in Hvar. case_bool_decide as Hname; [|discriminate].
  injection Hvar as <-. apply list_elem_of_In in Hname.
  pose proof (process_set_mentions f _ _ _ vars_ok_initial Hvalid E name Hname) as Hm.
  apply list_elem_of_In. unfold problem_variables. simpl.
  destruct (is_str f); [left; by rewrite Hm | by right].
Qed.

Lemma solve_ilp_Return_keys f a name :
  solve_ilp f (Return a) -> (is_Some (a !! name) <-> In name (literals f)).
Proof.
  intros H. inversion H as [| | p vars s Hp Hdup Hs Hvars Ha | |]. subst.
  apply sat_to_ilp_inv in Hp as (root & st & E & -> & ->).
  rewrite lookup_fmap, (process_set_variables f _ _ _ E name). simpl.
  rewrite lookup_empty. case_bool_decide as Hname.
  - split; [intros _; by apply list_elem_of_In | by eexists].
  - split; [by intros [? ?] | intros Hin; by apply list_elem_of_In in Hin].
Qed.

(** ** Variable names *)

Lemma translate_app s1 s2 :
  translate (s1 +:+ s2) = translate s1 +:+ translate s2.
Proof. induction s1 as [|c s1 IH]; simpl; [done | by rewrite IH]. Qed.

Lemma pretty_N_char_legal x : illegal_char (pretty_N_char x) = false.
Proof. unfold pretty_N_char. repeat case_match; reflexivity. Qed.

Lemma translate_pretty_N_go x s :
  translate (pretty_N_go x s) = pretty_N_go x (translate s).
Proof.
  revert s. induction (N.lt_wf_0 x) as [x _ IH]; intros s.
  destruct (decide (0 < x)%N) as [Hx | Hx].
  - rewrite (pretty_N_go_step x s), (pretty_N_go_step x (translate s)) by done.
    rewrite IH by (by apply N.div_lt). simpl.
    by rewrite pretty_N_char_legal.
  - assert (x = 0%N) as -> by lia. by rewrite !pretty_N_go_0.
Qed.

(** A decimal numeral has no character that the name setter replaces. *)
Lemma translate_pretty (k : nat) : translate (pretty k) = pretty k.
Proof.
  unfold pretty, pretty_nat, pretty, pretty_N.
  case_decide; [done|]. by rewrite translate_pretty_N_go.
Qed.

Lemma LpVariable_name_x name :
  LpVariable_name (x_ name) = "x_" +:+ translate name.
Proof. reflexivity. Qed.

Lemma LpVariable_name_aux k : LpVariable_name (aux_ k) = "aux_" +:+ pretty k.
Proof. unfold LpVariable_name. by rewrite translate_app, translate_pretty. Qed.

(** Two variables have the same name only if both are decision variables
    whose literal names agree after the renaming, or they are the same
    auxiliary variable. *)
Lemma LpVariable_name_eq v w :
  LpVariable_name v = LpVariable_name w ->
  match v, w with
  | x_ n, x_ m => translate n = translate m
  | aux_ j, aux_ k => j = k
  | _, _ => False
  end.
Proof.
  destruct v as [n|j], w as [m|k];
    rewrite ?LpVariable_name_x, ?LpVariable_name_aux; simpl; intros H;
    try discriminate H.
  - by injection H.
  - injection H as H. by apply (inj pretty).
Qed.

Lemma duplicate_names_true vs :
  duplicate_names vs = true <->
  exists v w, In v vs /\ In w vs /\ v <> w
              /\ LpVariable_name v = LpVariable_name w.
Proof.
  unfold duplicate_names. rewrite existsb_exists. split.
  - intros (v & Hv & H). apply existsb_exists in H as (w & Hw & H).
    apply andb_prop in H as [Hne Heq]. exists v, w.
    apply negb_true_iff, bool_decide_eq_false in Hne.
    by apply String.eqb_eq in Heq.
  - intros (v & w & Hv & Hw & Hne & Heq). exists v. split; [done|].
    apply existsb_exists. exists w. split; [done|].
    apply andb_true_intro. split.
    + by apply negb_true_iff, bool_decide_eq_false.
    + by apply String.eqb_eq.
Qed.

Lemma forallb_false_exists {A} (g : A -> bool) l :
  forallb g l = false -> exists a, In a l /\ g a = false.
Proof.
  induction l as [|a l IH]; simpl; [discriminate|].
  destruct (g a) eqn:E; simpl.
  - intros (b & Hb & Hg)%IH. eauto.
  - eauto.
Qed.

Lemma distinct_names_true f :
  distinct_names f = true ->
  forall n m, In n (literals f) -> In m (literals f) ->
    translate n = translate m -> n = m.
Proof.
  unfold distinct_names. intros H n m Hn Hm Heq.
  rewrite forallb_forall in H. specialize (H n Hn).
  rewrite forallb_forall in H. specialize (H m Hm).
  apply orb_prop in H as [H | H]; [by apply String.eqb_eq|].
  apply negb_true_iff, String.eqb_neq in H. done.
Qed.

Lemma distinct_names_false f :
  distinct_names f = false ->
  exists n m, In n (literals f) /\ In m (literals f) /\ n <> m
              /\ translate n = translate m.
Proof.
  unfold distinct_names.
  intros (n & Hn & H)%forallb_false_exists.
  apply forallb_false_exists in H as (m & Hm & H).
  apply orb_false_elim in H as [Hne Heq]. exists n, m.
  apply String.eqb_neq in Hne. apply negb_false_iff, String.eqb_eq in Heq. done.
Qed.

Lemma problem_variables_literals f p vars name :
  sat_to_ilp f = Return (p, vars) ->
  In (x_ name) (problem_variables p) -> In name (literals f).
Proof.
  intros (root & st & E & -> & ->)%sat_to_ilp_inv Hv.
  destruct (process_set_declared f _ _ _ vars_ok_initial E) as (Hroot & Hall).
  assert (declared st (x_ name)) as Hd.
  { unfold problem_variables in Hv. simpl in Hv.
    destruct Hv as [<- | Hv]; [done|]. apply Hall; [|done]. by intros w []. }
  simpl in Hd. rewrite (process_set_variables f _ _ _ E name) in Hd.
  simpl in Hd. rewrite lookup_empty in Hd.
  case_bool_decide as Hname; [|discriminate]. by apply list_elem_of_In.
Qed.

(** Literal names that stay different give the solver different names. *)
Lemma sat_to_ilp_distinct_names f p vars :
  distinct_names f = true ->
  sat_to_ilp f = Return (p, vars) ->
  duplicate_names (problem_variables p) = false.
Proof.
  intros Hdistinct Hp.
  destruct (duplicate_names (problem_variables p)) eqn:Hdup; [|done].
  apply duplicate_names_true in Hdup as (v & w & Hv & Hw & Hne & Heq).
  apply LpVariable_name_eq in Heq. destruct v as [n|j], w as [m|k]; try done.
  - destruct Hne. f_equal.
    apply (distinct_names_true f Hdistinct); [| |done].
    + by eapply problem_variables_literals.
    + by eapply problem_variables_literals.
  - by subst.
Qed.

(** In a well-formed formula, two literal names that the renaming merges
    are two variables of the problem with one name. *)
Lemma sat_to_ilp_colliding_names f p vars :
  validate f = true ->
  distinct_names f = false ->
  sat_to_ilp f = Return (p, vars) ->
  duplicate_names (problem_variables p) = true.
Proof.
  intros Hvalid (n & m & Hn & Hm & Hne & Heq)%distinct_names_false Hp.
  pose proof (sat_to_ilp_valid_all_valued f p vars Hvalid Hp) as Hall.
  assert (forall name, In name (literals f) -> In (x_ name) (problem_variables p))
    as Hin.
  { intros name Hname. apply list_elem_of_In. apply (Hall name).
    apply sat_to_ilp_inv in Hp as (root & st & E & _ & ->).
    rewrite (process_set_variables f _ _ _ E name). simpl.
    rewrite lookup_empty, bool_decide_eq_true_2; [done|].
    by apply list_elem_of_In. }
  apply duplicate_names_true. exists (x_ n), (x_ m).
  split; [by apply Hin|]. split; [by apply Hin|]. split; [congruence|].
  by rewrite !LpVariable_name_x, Heq.
Qed.

(** ** [solve_ilp] on well-formed formulas *)

Lemma solve_ilp_valid_outcome f r :
  validate f = true ->
  distinct_names f = true ->
  solve_ilp f r ->
  exists a, r = Return a
            /\ forall name, is_Some (a !! name) <-> In name (literals f).
Proof.
  intros Hvalid Hdistinct Hr.
  pose proof (validate_has_no_empty_not f Hvalid) as Hne.
  pose proof (process_set_outcome f initial_session) as Ho. rewrite Hne in Ho.
  destruct Ho as (root & st & Ho).
  destruct Hr as [e He | p' vars' Hp' Hdup | p' vars' s Hp' Hdup Hs Hvars
                 | p' vars' s name var Hp' Hdup Hs Hname Hvar
                 | p' vars' status s Hp' Hdup Hs Hst].
  - unfold sat_to_ilp in He. rewrite Ho in He. discriminate.
  - rewrite (sat_to_ilp_distinct_names f p' vars' Hdistinct Hp') in Hdup.
    discriminate.
  - eexists. split; [reflexivity|]. intros name.
    apply solve_ilp_Return_keys. by eapply solve_ilp_optimal.
  - destruct Hvar.
    by apply (sat_to_ilp_valid_all_valued f p' vars' Hvalid Hp' name var).
  - destruct (solve_ilp_never_no_solution f). by eapply solve_ilp_no_solution.
Qed.

(** X3: [solve_ilp] on a formula with valid arities.  When the literal names
    stay pairwise different under the solver's renaming of the characters
    [-+[] ->/], [solve_ilp] returns an assignment, never raises, and the keys
    of every assignment it returns are exactly the literals of the formula.
    When two literal names are merged by the renaming, [solve_ilp] raises
    PulpSolverError and has no other outcome. *)
Theorem solve_ilp_valid_returns f :
  validate f = true ->
  if distinct_names f
  then (exists a, solve_ilp f (Return a))
       /\ forall r, solve_ilp f r ->
            exists a, r = Return a
                      /\ forall name, is_Some (a !! name) <-> In name (literals f)
  else solve_ilp f (Raise PulpSolverError)
       /\ forall r, solve_ilp f r -> r = Raise PulpSolverError.
Proof.
  intros Hvalid.
  pose proof (validate_has_no_empty_not f Hvalid) as Hne.
  pose proof (process_set_outcome f initial_session) as Ho. rewrite Hne in Ho.
  destruct Ho as (root & st & Ho).
  assert (exists p vars, sat_to_ilp f = Return (p, vars)) as (p & vars & Hp).
  { unfold sat_to_ilp. rewrite Ho. eauto. }
  destruct (distinct_names f) eqn:Hdistinct.
  - split; [|intros r; by apply solve_ilp_valid_outcome].
    destruct (sat_to_ilp_has_optimum f p vars Hp) as [s Hs].
    eexists. eapply solve_ilp_optimal; [exact Hp | | exact Hs |].
    + by eapply sat_to_ilp_distinct_names.
    + by apply (sat_to_ilp_valid_all_valued f).
  - split.
    + eapply solve_ilp_duplicate_names; [exact Hp|].
      by eapply sat_to_ilp_colliding_names.
    + intros r Hr.
      destruct Hr as [e He | p' vars' Hp' Hdup | p' vars' s Hp' Hdup Hs Hvars
                     | p' vars' s name var Hp' Hdup Hs Hname Hvar
                     | p' vars' status s Hp' Hdup Hs Hst];
        try reflexivity.
      * rewrite Hp in He. discriminate.
      * rewrite (sat_to_ilp_colliding_names f p' vars' Hvalid Hdistinct Hp') in Hdup.
        discriminate.
      * rewrite (sat_to_ilp_colliding_names f p' vars' Hvalid Hdistinct Hp') in Hdup.
        discriminate.
      * rewrite (sat_to_ilp_colliding_names f p' vars' Hvalid Hdistinct Hp') in Hdup.
        discriminate.
Qed.

Lemma solve_ilp_valid_returns_witness :
  validate test_and_operator = true
  /\ distinct_names test_and_operator = true
  /\ (exists a, solve_ilp test_and_operator (Return a))
  /\ (forall r, solve_ilp test_and_operator r ->
        exists a, r = Return a
                  /\ forall name,
                       is_Some (a !! name) <-> In name (literals test_and_operator))
  /\ validate colliding_names = true
  /\ distinct_names colliding_names = false
  /\ solve_ilp colliding_names (Raise PulpSolverError).
Proof.
  split; [reflexivity|]. split; [reflexivity|].
  pose proof (solve_ilp_valid_returns test_and_operator eq_refl) as [H1 H2].
  split; [exact H1|]. split; [exact H2|].
  split; [reflexivity|]. split; [reflexivity|].
  exact (proj1 (solve_ilp_valid_returns colliding_names eq_refl)).
Defined.

(** ** What [solve_ilp] can raise *)

(** X4: the exceptions of [solve_ilp].  It raises IndexError exactly on the
    formulas with a NOT gate that has no operand (the encoder's failure); it
    raises PulpSolverError only when two literal names of the formula are
    merged by the solver's renaming; it can raise TypeError only on an
    ill-formed formula (a decision variable that occurs in no constraint has
    no value to round); it raises nothing else, in particular never
    "No solution"; and when it returns, the keys of the assignment are the
    literals of the formula. *)
Theorem solve_ilp_outcomes f r :
  solve_ilp f r ->
  match r with
  | Return a =>
      has_empty_not f = false
      /\ forall name, is_Some (a !! name) <-> In name (literals f)
  | Raise IndexError => has_empty_not f = true
  | Raise TypeError => has_empty_not f = false /\ validate f = false
  | Raise PulpSolverError => has_empty_not f = false /\ distinct_names f = false
  | Raise _ => False
  end.
Proof.
  intros Hr.
  assert (forall p vars, sat_to_ilp f = Return (p, vars) -> has_empty_not f = false)
    as Hencoded.
  { intros p vars Hp. unfold sat_to_ilp in Hp.
    pose proof (process_set_outcome f initial_session) as Ho.
    destruct (has_empty_not f); [|done]. rewrite Ho in Hp. discriminate. }
  pose proof Hr as Hr'.
  destruct Hr as [e He | p vars Hp Hdup | p vars s Hp Hdup Hs Hvars
                 | p vars s name var Hp Hdup Hs Hname Hvar
                 | p vars status s Hp Hdup Hs Hst].
  - unfold sat_to_ilp in He.
    pose proof (process_set_outcome f initial_session) as Ho.
    destruct (has_empty_not f).
    + rewrite Ho in He. by injection He as <-.
    + destruct Ho as (v & st & Ho). rewrite Ho in He. discriminate.
  - split; [by eapply Hencoded|].
    destruct (distinct_names f) eqn:Hdistinct; [|done].
    rewrite (sat_to_ilp_distinct_names f p vars Hdistinct Hp) in Hdup.
    discriminate.
  - split; [by eapply Hencoded|]. intros name. by apply solve_ilp_Return_keys.
  - split; [by eapply Hencoded|].
    destruct (validate f) eqn:Hvalid; [|done]. destruct Hvar.
    by apply (sat_to_ilp_valid_all_valued f p vars Hvalid Hp name var).
  - by apply (solve_ilp_never_no_solution f).
Qed.

Lemma not_two_operands_optimum :
  solve not_two_operands_problem Optimal a_false.
Proof.
  constructor.
  - split; [apply a_false_binary|]. repeat constructor; simpl; lia.
  - intros s' [Hb _]. unfold objective_value. simpl. destruct (Hb (aux_ 0)); lia.
Qed.

Lemma solve_ilp_not_two_operands :
  solve_ilp not_two_operands (Raise TypeError).
Proof.
  eapply (solve_ilp_unvalued _ not_two_operands_problem _ a_false "b" (x_ "b")).
  - reflexivity.
  - reflexivity.
  - apply not_two_operands_optimum.
  - reflexivity.
  - intros Hin. apply list_elem_of_In in Hin. simpl in Hin.
    destruct Hin as [H | [H | [H | []]]]; discriminate.
Qed.

Lemma solve_ilp_outcomes_witness :
  solve_ilp not_two_operands (Raise TypeError)
  /\ has_empty_not not_two_operands = false
  /\ validate not_two_operands = false.
Proof.
  split; [exact solve_ilp_not_two_operands|].
  exact (solve_ilp_outcomes not_two_operands (Raise TypeError)
           solve_ilp_not_two_operands).
Defined.

(** ** Encoding at another counter *)

Lemma shift_sum_from d values acc :
  fold_left (fun acc v => EAdd acc (EVar v)) (map (shift_var d) values)
    (shift_expr d acc)
  = shift_expr d (fold_left (fun acc v => EAdd acc (EVar v)) values acc).
Proof.
  revert acc. induction values as [|v values IH]; intros acc; simpl; [done|].
  by rewrite <- IH.
Qed.

Lemma shift_gate_constraints d op k values :
  gate_constraints op (aux_ (d + k)) (map (shift_var d) values)
  = map (shift_constraint d) (gate_constraints op (aux_ k) values).
Proof.
  assert (sum (map (shift_var d) values) = shift_expr d (sum values)) as Hsum.
  { unfold sum. by rewrite <- shift_sum_from. }
  destruct op; simpl.
  - rewrite map_app, !map_map, length_map, Hsum. reflexivity.
  - rewrite map_app, !map_map, Hsum. reflexivity.
  - by destruct values.
Qed.

Lemma mapM_process_set_shift d vs :
  Forall (fun f => forall st st' v st1,
    vars_ok st -> vars_ok st' ->
    aux_counter st' = (d + aux_counter st)%nat ->
    process_set f st = Return (v, st1) ->
    exists st1' cs,
      process_set f st' = Return (shift_var d v, st1')
      /\ problem st1 = problem (with_constraints st cs)
      /\ problem st1' = problem (with_constraints st' (map (shift_constraint d) cs))
      /\ aux_counter st1' = (d + aux_counter st1)%nat
      /\ vars_ok st1') vs ->
  forall st st' values st1,
    vars_ok st -> vars_ok st' ->
    aux_counter st' = (d + aux_counter st)%nat ->
    mapM process_set vs st = Return (values, st1) ->
    exists st1' cs,
      mapM process_set vs st' = Return (map (shift_var d) values, st1')
      /\ problem st1 = problem (with_constraints st cs)
      /\ problem st1' = problem (with_constraints st' (map (shift_constraint d) cs))
      /\ aux_counter st1' = (d + aux_counter st1)%nat
      /\ vars_ok st1'.
Proof.
  induction 1 as [|f vs Hf _ IH]; intros st st' values st1 Hok Hok' Hc.
  - intros [= <- <-]. exists st', [].
    change (map (shift_constraint d) []) with (@nil LpConstraint).
    rewrite !with_constraints_nil. by repeat split.
  - rewrite !mapM_cons.
    destruct (process_set f st) as [[v sta]|e] eqn:Ef; [|discriminate].
    destruct (mapM process_set vs sta) as [[vals stb]|e] eqn:Evs; [|discriminate].
    intros [= <- <-].
    destruct (Hf _ _ _ _ Hok Hok' Hc Ef) as (sta' & csa & Ef' & Hpa & Hpa' & Hca & Hoka').
    destruct (process_set_sound f _ _ _ Hok Ef) as (Hoka & _ & _).
    destruct (IH _ _ _ _ Hoka Hoka' Hca Evs) as (stb' & csb & Evs' & Hpb & Hpb' & Hcb & Hokb').
    exists stb', (csa ++ csb). rewrite Ef', Evs'. split; [reflexivity|].
    split; [|split; [|done]].
    + rewrite Hpb. unfold with_constraints. simpl. rewrite Hpa. simpl.
      by rewrite app_assoc.
    + rewrite Hpb'. unfold with_constraints. simpl. rewrite Hpa'. simpl.
      by rewrite map_app, app_assoc.
Qed.

Lemma vars_ok_with_constraints st cs :
  vars_ok st -> vars_ok (with_constraints (bump st) cs).
Proof. intros Hok. exact Hok. Qed.

(** X15: the encoding does not depend on where the counter stands, up to
    the names of the auxiliary variables.  Encoding a formula from a session
    whose counter is [d] higher succeeds as well, returns the same variable
    with its number moved up by [d], appends the same constraints with every
    auxiliary variable moved up by [d], and advances the counter by the same
    amount; decision variables are the same in both. *)
Theorem process_set_counter_shift d f :
  forall st st' v st1,
    vars_ok st -> vars_ok st' ->
    aux_counter st' = (d + aux_counter st)%nat ->
    process_set f st = Return (v, st1) ->
    exists st1' cs,
      process_set f st' = Return (shift_var d v, st1')
      /\ problem st1 = problem (with_constraints st cs)
      /\ problem st1' = problem (with_constraints st' (map (shift_constraint d) cs))
      /\ aux_counter st1' = (d + aux_counter st1)%nat
      /\ vars_ok st1'.
Proof.
  induction f as [name | op vs IH] using Formula_nested_ind;
    intros st st' v st1 Hok Hok' Hc H.
  - destruct (process_literal_inv _ _ _ _ Hok H) as (-> & _ & Hp & Hc1).
    destruct (process_set_outcome (Literal name) st') as (v' & st1' & H').
    destruct (process_literal_inv _ _ _ _ Hok' H') as (-> & Hok1' & Hp' & Hc1').
    exists st1', [].
    change (map (shift_constraint d) []) with (@nil LpConstraint).
    rewrite !with_constraints_nil, Hp, Hp'.
    repeat split; [done | lia | done].
  - apply process_set_Gate_inv in H as (values & sta & Hvs & Hne & -> & ->).
    destruct (mapM_process_set_shift d _ IH _ _ _ _ Hok Hok' Hc Hvs)
      as (sta' & cs & Hvs' & Hp & Hp' & Hca & Hoka').
    exists (with_constraints (bump sta')
              (gate_constraints op (aux_ (aux_counter sta'))
                 (map (shift_var d) values))),
           (cs ++ gate_constraints op (aux_ (aux_counter sta)) values).
    split.
    { rewrite process_set_Gate, Hvs', emit_gate_Return.
      - simpl. by rewrite Hca.
      - intros Hop Hnil. apply Hne; [done|]. by destruct values. }
    split; [|split; [|split; [simpl; lia | by apply vars_ok_with_constraints]]].
    + unfold with_constraints. simpl. rewrite Hp. simpl. by rewrite app_assoc.
    + unfold with_constraints. simpl. rewrite Hp'. simpl.
      by rewrite map_app, app_assoc, Hca, shift_gate_constraints.
Qed.

Lemma process_set_counter_shift_witness :
  process_set test_not_operator initial_session
  = Return (aux_ 0%nat,
      mkSession
        (mkLpProblem LpMaximize None
           [LpEq (EVar (aux_ 0)) (ESub (EConst 1) (EVar (x_ "a")))])
        {["a" := x_ "a"]} 1%nat)
  /\ exists st1' cs,
      process_set test_not_operator (mkSession (mkLpProblem LpMaximize None []) ∅ 5%nat)
      = Return (aux_ 5%nat, st1')
      /\ [LpEq (EVar (aux_ 0)) (ESub (EConst 1) (EVar (x_ "a")))] = [] ++ cs
      /\ constraints (problem st1') = [] ++ map (shift_constraint 5) cs.
Proof.
  split; [reflexivity|].
  destruct (process_set_counter_shift 5 test_not_operator initial_session
              (mkSession (mkLpProblem LpMaximize None []) ∅ 5%nat)
              (aux_ 0%nat)
              (mkSession
                 (mkLpProblem LpMaximize None
                    [LpEq (EVar (aux_ 0)) (ESub (EConst 1) (EVar (x_ "a")))])
                 {["a" := x_ "a"]} 1%nat)
              vars_ok_initial vars_ok_initial eq_refl eq_refl)
    as (st1' & cs & H' & Hp & Hp' & _).
  exists st1', cs. split; [exact H'|]. split.
  - exact (f_equal constraints Hp).
  - exact (f_equal constraints Hp').
Defined.

(** ** The test suite *)

Lemma assignment_values_true (a : gmap string bool) key :
  assignment_values a key = true -> a !! key = Some true.
Proof. unfold assignment_values. by destruct (a !! key) as [[|]|]. Qed.

Lemma assignment_values_false (a : gmap string bool) key :
  is_Some (a !! key) -> assignment_values a key = false -> a !! key = Some false.
Proof. unfold assignment_values. intros [b ->]. simpl. by intros ->. Qed.

(** Every outcome of [solve_ilp] on a well-formed formula that has a model
    is a returned assignment which is a model and has the formula's literals
    as keys. *)
Lemma solve_ilp_valid_satisfiable f lit r :
  validate f = true ->
  distinct_names f = true ->
  formula_value lit f = true ->
  solve_ilp f r ->
  exists a,
    r = Return a
    /\ formula_value (assignment_values a) f = true
    /\ forall name, In name (literals f) -> is_Some (a !! name).
Proof.
  intros Hvalid Hdistinct Hlit Hr.
  destruct (solve_ilp_valid_outcome f r Hvalid Hdistinct Hr) as (a & -> & Hkeys).
  exists a. split; [reflexivity|].
  destruct (solve_ilp_sound_when_satisfiable f lit a Hlit Hr) as [_ Hval].
  split; [done|]. intros name. apply Hkeys.
Qed.

(** X16: the six tests of [TestSatToILP] pass with every solver that
    honours its contract: whatever optimal solution the solver picks,
    [solve_ilp] returns and the assertions of the test hold of the
    solution. *)
Theorem TestSatToILP_passes :
  (forall r, solve_ilp test_single_variable r ->
     passes r (fun solution => assertTrue_at solution "a"))
  /\ (forall r, solve_ilp test_not_operator r ->
       passes r (fun solution => assertFalse_at solution "a"))
  /\ (forall r, solve_ilp test_and_operator r ->
       passes r (fun solution =>
         assertTrue_at solution "a" /\ assertTrue_at solution "b"))
  /\ (forall r, solve_ilp test_or_operator r -> passes r assertTrue_any)
  /\ (forall r, solve_ilp test_nested_and_or r -> passes r assertTrue_any)
  /\ (forall r, solve_ilp test_complex_nested_expression r ->
       passes r (fun solution =>
         assertFalse_and solution "a" "b" /\ assertTrue_at solution "c")).
Proof.
  repeat split; intros r Hr.
  - destruct (solve_ilp_valid_satisfiable test_single_variable (fun _ => true) r eq_refl eq_refl eq_refl Hr)
      as (a & -> & Hval & Hkeys).
    exists a. split; [done|]. simpl in Hval. rewrite orb_false_r in Hval.
    by apply assignment_values_true.
  - destruct (solve_ilp_valid_satisfiable test_not_operator (fun _ => false) r eq_refl eq_refl eq_refl Hr)
      as (a & -> & Hval & Hkeys).
    exists a. split; [done|]. simpl in Hval. apply negb_true_iff in Hval.
    apply assignment_values_false; [|done]. apply Hkeys. simpl. auto.
  - destruct (solve_ilp_valid_satisfiable test_and_operator (fun _ => true) r eq_refl eq_refl eq_refl Hr)
      as (a & -> & Hval & Hkeys).
    exists a. split; [done|]. simpl in Hval. rewrite andb_true_r in Hval.
    apply andb_prop in Hval as [Ha Hb].
    split; by apply assignment_values_true.
  - destruct (solve_ilp_valid_satisfiable test_or_operator (fun _ => true) r eq_refl eq_refl eq_refl Hr)
      as (a & -> & Hval & Hkeys).
    exists a. split; [done|]. simpl in Hval. rewrite orb_false_r in Hval.
    apply orb_prop in Hval as [Ha | Hb].
    + exists "a". by apply assignment_values_true.
    + exists "b". by apply assignment_values_true.
  - destruct (solve_ilp_valid_satisfiable test_nested_and_or (fun _ => true) r eq_refl eq_refl eq_refl Hr)
      as (a & -> & Hval & Hkeys).
    exists a. split; [done|]. simpl in Hval.
    rewrite orb_false_r, andb_true_r in Hval.
    apply orb_prop in Hval as [[Ha _]%andb_prop | Hc].
    + exists "a". by apply assignment_values_true.
    + exists "c". by apply assignment_values_true.
  - destruct (solve_ilp_valid_satisfiable test_complex_nested_expression
                (fun name => String.eqb name "c") r eq_refl eq_refl eq_refl Hr)
      as (a & -> & Hval & Hkeys).
    exists a. split; [done|]. simpl in Hval.
    rewrite orb_false_r, andb_true_r in Hval.
    apply negb_true_iff, orb_false_elim in Hval as [Hab Hc].
    apply negb_false_iff in Hc. split; [|by apply assignment_values_true].
    unfold assertFalse_and.
    destruct (assignment_values a "a") eqn:Ha.
    + right. split; [by apply assignment_values_true|].
      apply assignment_values_false; [|done]. apply Hkeys. simpl. auto.
    + left. apply assignment_values_false; [|done]. apply Hkeys. simpl. auto.
Qed.
